(** * scripts/replace_console.py: console-to-logger codemod

    A shallow embedding of the script and the properties of its
    import inserter, rewriter, locator and reporter.

    Text is a list of characters; a character is a code point below 256.
    The regular expressions of the script are sequences of literals,
    greedy repetitions of one character class and the two line anchors,
    so the pattern syntax below is exactly that fragment, matched
    with the backtracking order of Python's [re] module. *)

From Stdlib Require Import Ascii String DecimalString DecimalNat.
From Stdlib Require Import ZArith Lia Bool Arith PeanoNat List.
Import ListNotations.

(** ** Text *)

Definition str := list ascii.

Definition lit (x : string) : str := list_ascii_of_string x.

Definition NL : ascii := "010"%char.
Definition DQ : ascii := "034"%char.
Definition SQ : ascii := "039"%char.

(** [str.isspace] on code points below 256; also the class [\s]. *)
Definition isspace (c : ascii) : bool :=
  let n := nat_of_ascii c in
  ((9 <=? n) && (n <=? 13)) || ((28 <=? n) && (n <=? 32))
  || (n =? 133) || (n =? 160).

(** [strip_prefix w s] is the rest of [s] after its prefix [w]. *)
Fixpoint strip_prefix (w s : str) : option str :=
  match w with
  | [] => Some s
  | a :: w' =>
      match s with
      | [] => None
      | c :: s' => if Ascii.eqb a c then strip_prefix w' s' else None
      end
  end.

Definition startswith (w s : str) : bool :=
  match strip_prefix w s with Some _ => true | None => false end.

(** [needle in hay] *)
Fixpoint contains (needle hay : str) : bool :=
  if startswith needle hay then true
  else match hay with
       | [] => false
       | _ :: hay' => contains needle hay'
       end.

(** [s.count(c)] for a one-character [c] *)
Fixpoint count_char (c : ascii) (s : str) : nat :=
  match s with
  | [] => 0
  | x :: s' => (if Ascii.eqb x c then 1 else 0) + count_char c s'
  end.

(** [w * n]; a negative [n] gives the empty text, as in Python. *)
Definition repeat_str (w : str) (n : Z) : str :=
  concat (repeat w (Z.to_nat n)).

(** [s.split(c)] for a one-character separator: never an empty list. *)
Fixpoint split_on (c : ascii) (s : str) : list str :=
  match s with
  | [] => [[]]
  | x :: s' =>
      if Ascii.eqb x c then [] :: split_on c s'
      else match split_on c s' with
           | [] => [[x]]
           | l :: ls => (x :: l) :: ls
           end
  end.

Fixpoint lstrip (s : str) : str :=
  match s with
  | c :: s' => if isspace c then lstrip s' else s
  | [] => []
  end.

(** [s.strip()] *)
Definition strip (s : str) : str := rev (lstrip (rev (lstrip s))).

(** ** Patterns of the [re] module *)

Inductive cclass :=
| Dot                    (* [.]  : anything but a newline *)
| NoneOf (c : ascii)     (* [[^c]] *)
| Space.                 (* [\s] *)

Definition in_class (k : cclass) (c : ascii) : bool :=
  match k with
  | Dot => negb (Ascii.eqb c NL)
  | NoneOf x => negb (Ascii.eqb c x)
  | Space => isspace c
  end.

Inductive item :=
| Lit (w : str)                                  (* literal characters *)
| Many (capture : bool) (lo : nat) (k : cclass)  (* greedy k{lo,}, maybe a group *)
| Bol                                            (* [^] under MULTILINE *)
| Eol.                                           (* [$] under MULTILINE *)

Definition pattern := list item.

Definition plus (k : cclass) : item := Many false 1 k.   (* k+ *)
Definition star (k : cclass) : item := Many false 0 k.   (* k* *)
Definition group_plus (k : cclass) : item := Many true 1 k.   (* (k+) *)

(** Length of the longest run of class [k] at the head of [s]. *)
Fixpoint run_length (k : cclass) (s : str) : nat :=
  match s with
  | c :: s' => if in_class k c then S (run_length k s') else 0
  | [] => 0
  end.

(** Greedy choice with backtracking: the first of [n], [n-1], ..., [lo]
    on which [f] succeeds. *)
Fixpoint first_down {A : Type} (f : nat -> option A) (lo n : nat) : option A :=
  if n <? lo then None
  else match f n with
       | Some r => Some r
       | None => match n with
                 | 0 => None
                 | S n' => first_down f lo n'
                 end
       end.

(** The character before the position reached after [n] characters of [s]. *)
Definition prev_after (prev : option ascii) (s : str) (n : nat) : option ascii :=
  match n with
  | 0 => prev
  | S j => nth_error s j
  end.

Definition at_bol (prev : option ascii) : bool :=
  match prev with
  | None => true
  | Some c => Ascii.eqb c NL
  end.

Definition at_eol (s : str) : bool :=
  match s with
  | [] => true
  | c :: _ => Ascii.eqb c NL
  end.

Definition shift (n : nat) (cap : option str) (r : option (nat * list str))
  : option (nat * list str) :=
  match r with
  | Some (m, gs) =>
      Some (n + m, match cap with Some g => g :: gs | None => gs end)
  | None => None
  end.

(** [match_here p adv prev s]: the match of [p] at the head of [s] that
    the backtracking matcher finds first, as the number of characters
    consumed and the captured groups.  [prev] is the character before the
    position; [adv] asks for a non-empty match (the matcher's must-advance
    flag after an empty match). *)
Fixpoint match_here (p : pattern) (adv : bool) (prev : option ascii) (s : str)
  : option (nat * list str) :=
  match p with
  | [] => if adv then None else Some (0, [])
  | Lit w :: p' =>
      match strip_prefix w s with
      | Some s' =>
          shift (length w) None
            (match_here p' (adv && (length w =? 0))
               (prev_after prev s (length w)) s')
      | None => None
      end
  | Many capture lo k :: p' =>
      first_down
        (fun n =>
           shift n (if capture then Some (firstn n s) else None)
             (match_here p' (adv && (n =? 0)) (prev_after prev s n) (skipn n s)))
        lo (run_length k s)
  | Bol :: p' => if at_bol prev then match_here p' adv prev s else None
  | Eol :: p' => if at_eol s then match_here p' adv prev s else None
  end.

(** Replacement templates: literal text and group references [\n]. *)
Inductive piece :=
| Text (w : str)
| Group (n : nat).

Definition template := list piece.

Definition expand (t : template) (gs : list str) : str :=
  concat (map (fun x => match x with
                        | Text w => w
                        | Group n => nth (n - 1) gs []
                        end) t).

(** The left-to-right scan shared by [re.finditer] and [re.subn]: every
    character is either copied or covered by a match.  After a match the
    scan resumes at its end; after an empty match the same position is
    tried once more for a non-empty one. *)
Inductive token :=
| Copy (c : ascii)
| Hit (n : nat) (gs : list str).

Fixpoint scan (p : pattern) (skip : nat) (prev : option ascii) (s : str)
  : list token :=
  match s with
  | [] =>
      match skip with
      | 0 => match match_here p false prev [] with
             | Some (n, gs) => [Hit n gs]
             | None => []
             end
      | S _ => []
      end
  | c :: s' =>
      match skip with
      | S k => scan p k (Some c) s'
      | 0 =>
          match match_here p false prev s with
          | Some (S n, gs) => Hit (S n) gs :: scan p n (Some c) s'
          | Some (0, gs) =>
              match match_here p true prev s with
              | Some (S n, gs') =>
                  Hit 0 gs :: Hit (S n) gs' :: scan p n (Some c) s'
              | _ => Hit 0 gs :: Copy c :: scan p 0 (Some c) s'
              end
          | None => Copy c :: scan p 0 (Some c) s'
          end
      end
  end.

Definition hits (ts : list token) : nat :=
  length (filter (fun x => match x with Hit _ _ => true | Copy _ => false end) ts).

Definition render (t : template) (ts : list token) : str :=
  concat (map (fun x => match x with
                        | Copy c => [c]
                        | Hit _ gs => expand t gs
                        end) ts).

(** [re.subn(p, t, s)] *)
Definition subn (p : pattern) (t : template) (s : str) : str * nat :=
  let ts := scan p 0 None s in (render t ts, hits ts).

(** Spans [(start, end)] of the matches, in order. *)
Fixpoint spans (pos : nat) (ts : list token) : list (nat * nat) :=
  match ts with
  | [] => []
  | Copy _ :: ts' => spans (S pos) ts'
  | Hit n _ :: ts' => (pos, pos + n) :: spans (pos + n) ts'
  end.

(** [list(re.finditer(p, s, re.MULTILINE))] *)
Definition finditer (p : pattern) (s : str) : list (nat * nat) :=
  spans 0 (scan p 0 None s).

(** [re.search(p, s)] finds a match somewhere in [s]. *)
Fixpoint search (p : pattern) (prev : option ascii) (s : str) : bool :=
  match match_here p false prev s with
  | Some _ => true
  | None => match s with
            | [] => false
            | c :: s' => search p (Some c) s'
            end
  end.

(** ** The script *)

(** *** Import inserter *)

(** [r"^const .+ = require\(.+\);$"] *)
Definition require_pattern : pattern :=
  [Bol; Lit (lit "const "); plus Dot; Lit (lit " = require("); plus Dot;
   Lit (lit ");"); Eol].

Definition has_logger_reference (content : str) : bool :=
  contains (lit "require('../../utils/logger')") content
  || contains (lit "require(" ++ [DQ] ++ lit "../../utils/logger" ++ [DQ] ++ lit ")")
       content.

Definition logger_path (filepath : str) : str :=
  let depth := (Z.of_nat (count_char "/" filepath) - 1)%Z in
  repeat_str (lit "../") depth ++ lit "utils/logger".

Definition logger_statement (filepath : str) : str :=
  lit "const logger = require('" ++ logger_path filepath ++ lit "');".

(** [f"\nconst logger = require('{logger_path}');"] *)
Definition logger_line (filepath : str) : str :=
  NL :: logger_statement filepath.

Definition add_logger_import (content filepath : str) : str * bool :=
  if has_logger_reference content then (content, false)
  else
    let matches := finditer require_pattern content in
    match matches with
    | _ :: _ =>
        let last_match := last matches (0, 0) in
        let insert_pos := snd last_match in
        (firstn insert_pos content ++ logger_line filepath
           ++ skipn insert_pos content, true)
    | [] => (content, false)
    end.

(** *** Rewriter *)

Definition rule := (pattern * template)%type.

(** [console\.error\(q([^q]+)q,\s*error\);] to
    [logger.error(q\1q, { error: error.message, stack: error.stack });] *)
Definition error_object_rule (q : ascii) : rule :=
  ([Lit (lit "console.error(" ++ [q]); group_plus (NoneOf q);
    Lit (q :: lit ","); star Space; Lit (lit "error);")],
   [Text (lit "logger.error(" ++ [q]); Group 1;
    Text (q :: lit ", { error: error.message, stack: error.stack });")]).

(** [<from>\(q([^q]+)q\);] to [<to>(q\1q);] *)
Definition message_rule (from to : string) (q : ascii) : rule :=
  ([Lit (lit from ++ lit "(" ++ [q]); group_plus (NoneOf q); Lit (q :: lit ");")],
   [Text (lit to ++ lit "(" ++ [q]); Group 1; Text (q :: lit ");")]).

(** The eight substitutions, in the order the script applies them. *)
Definition rules : list rule :=
  [ error_object_rule SQ;
    error_object_rule DQ;
    message_rule "console.error" "logger.error" SQ;
    message_rule "console.error" "logger.error" DQ;
    message_rule "console.log" "logger.info" SQ;
    message_rule "console.log" "logger.info" DQ;
    message_rule "console.warn" "logger.warn" SQ;
    message_rule "console.warn" "logger.warn" DQ ].

Definition apply_rule (acc : str * nat) (r : rule) : str * nat :=
  let (new_content, count) := subn (fst r) (snd r) (fst acc) in
  (new_content, snd acc + count).

Definition replace_console_statements (content : str) : str * nat :=
  fold_left apply_rule rules (content, 0).

(** The per-file rewrite of [main]: import insertion, then replacement. *)
Definition rewrite_file (content filepath : str) : str :=
  fst (replace_console_statements (fst (add_logger_import content filepath))).

(** *** Locator *)

(** What [subprocess.run(argv, capture_output=True, text=True)] does. *)
Inductive outcome :=
| Raised
| Completed (returncode : Z) (stdout : str).

Definition digit_of (c : ascii) : option Z :=
  let n := nat_of_ascii c in
  if (48 <=? n) && (n <=? 57) then Some (Z.of_nat (n - 48)) else None.

(** Decimal digits, a single underscore allowed between two digits. *)
Fixpoint digits (acc : Z) (after_digit : bool) (s : str) : option Z :=
  match s with
  | [] => if after_digit then Some acc else None
  | c :: s' =>
      match digit_of c with
      | Some d => digits (10 * acc + d)%Z true s'
      | None =>
          if Ascii.eqb c "_" && after_digit then digits acc false s' else None
      end
  end.

(** [int(s)]; [None] stands for ValueError. *)
Definition int (s : str) : option Z :=
  match strip s with
  | "-"%char :: d => option_map Z.opp (digits 0 false d)
  | "+"%char :: d => digits 0 false d
  | d => digits 0 false d
  end.

Definition grep_argv (filepath : str) : list str :=
  [lit "grep"; lit "-c"; lit "console\.\(log\|error\|warn\)"; filepath].

Definition find_argv : list str :=
  [lit "find"; lit "src"; lit "-name"; lit "*.js"; lit "-type"; lit "f"].

Section Locator.

Variable run : list str -> outcome.

Definition count_console_statements (filepath : str) : Z :=
  match run (grep_argv filepath) with
  | Completed returncode stdout =>
      if (returncode =? 0)%Z
      then match int (strip stdout) with
           | Some n => n
           | None => 0%Z          (* ValueError, swallowed *)
           end
      else 0%Z
  | Raised => 0%Z
  end.

Definition is_candidate (filepath : str) : bool :=
  match filepath with
  | [] => false
  | _ :: _ => (0 <? count_console_statements filepath)%Z
  end.

(** [None]: the enumeration raised (it runs with [check=True]). *)
Definition find_files_with_console : option (list str) :=
  match run find_argv with
  | Completed returncode stdout =>
      if (returncode =? 0)%Z
      then Some (filter is_candidate (split_on NL (strip stdout)))
      else None
  | Raised => None
  end.

End Locator.

(** *** Reporter *)

Record file_log := {
  log_path : str;
  before_count : Z;
  logger_added : bool;
  replacements : nat;
  after_count : Z
}.

(** What [main] prints. *)
Inductive summary :=
| NoConsoleStatements
| Complete (files_processed : nat) (logger_imports_added : Z)
    (total_replacements : Z) (remaining : option (nat * Z))
    (per_file : list file_log).

Definition sumZ (l : list Z) : Z := fold_right Z.add 0%Z l.

Section Main.

Variable World : Type.
Variable run : World -> list str -> outcome.
Variable read_text : World -> str -> option str.
Variable write_text : World -> str -> str -> option World.

(** One turn of the loop of [main]; [None] when [open] raises. *)
Definition process_file (w : World) (filepath : str)
  : option (World * file_log) :=
  match read_text w filepath with
  | None => None
  | Some content =>
      let before := count_console_statements (run w) filepath in
      let (content1, added) := add_logger_import content filepath in
      let (content2, count) := replace_console_statements content1 in
      match write_text w filepath content2 with
      | None => None
      | Some w' =>
          let after := count_console_statements (run w') filepath in
          Some (w', {| log_path := filepath; before_count := before;
                       logger_added := added; replacements := count;
                       after_count := after |})
      end
  end.

Fixpoint process_files (w : World) (files : list str)
  (total_replacements files_with_logger_added : Z) (logs : list file_log)
  : option (World * Z * Z * list file_log) :=
  match files with
  | [] => Some (w, total_replacements, files_with_logger_added, rev logs)
  | filepath :: rest =>
      match process_file w filepath with
      | None => None
      | Some (w', l) =>
          process_files w' rest
            (total_replacements + (before_count l - after_count l))%Z
            (if logger_added l then files_with_logger_added + 1
             else files_with_logger_added)%Z
            (l :: logs)
      end
  end.

Definition main (w : World) : option (World * summary) :=
  match find_files_with_console (run w) with
  | None => None
  | Some [] => Some (w, NoConsoleStatements)
  | Some files =>
      match process_files w files 0 0 [] with
      | None => None
      | Some (w', total_replacements, files_with_logger_added, logs) =>
          match find_files_with_console (run w') with
          | None => None
          | Some remaining_files =>
              let remaining :=
                match remaining_files with
                | [] => None
                | _ :: _ =>
                    Some (length remaining_files,
                          sumZ (map (count_console_statements (run w'))
                                  remaining_files))
                end in
              Some (w', Complete (length files) files_with_logger_added
                          total_replacements remaining logs)
          end
      end
  end.

(** The loop of [main] told file by file: each file is read, rewritten
    and written back, and counted before the rewrite and after the
    write. *)
Inductive processed : World -> list str -> World -> list file_log -> Prop :=
| Processed_none w : processed w [] w []
| Processed_file w filepath content content1 added content2 count w1
    rest w' logs :
    read_text w filepath = Some content ->
    add_logger_import content filepath = (content1, added) ->
    replace_console_statements content1 = (content2, count) ->
    write_text w filepath content2 = Some w1 ->
    processed w1 rest w' logs ->
    processed w (filepath :: rest) w'
      ({| log_path := filepath;
          before_count := count_console_statements (run w) filepath;
          logger_added := added;
          replacements := count;
          after_count := count_console_statements (run w1) filepath |}
         :: logs).

End Main.

Arguments process_file {World}.
Arguments process_files {World}.
Arguments main {World}.
Arguments processed {World}.

(** *** The world a run leaves

    An exception ends [main] but not the world: what was written before it
    stays written.  [main_run] is [main] with the world in which it ends,
    beside [None] when it raises. *)

Section MainRun.

Variable World : Type.
Variable run : World -> list str -> outcome.
Variable read_text : World -> str -> option str.
Variable write_text : World -> str -> str -> option World.

Fixpoint process_files_run (w : World) (files : list str)
  (total_replacements files_with_logger_added : Z) (logs : list file_log)
  : World * option (Z * Z * list file_log) :=
  match files with
  | [] => (w, Some (total_replacements, files_with_logger_added, rev logs))
  | filepath :: rest =>
      match process_file run read_text write_text w filepath with
      | None => (w, None)          (* [open] raised: the file is as it was *)
      | Some (w', l) =>
          process_files_run w' rest
            (total_replacements + (before_count l - after_count l))%Z
            (if logger_added l then files_with_logger_added + 1
             else files_with_logger_added)%Z
            (l :: logs)
      end
  end.

Definition main_run (w : World) : World * option summary :=
  match find_files_with_console (run w) with
  | None => (w, None)
  | Some [] => (w, Some NoConsoleStatements)
  | Some files =>
      match process_files_run w files 0 0 [] with
      | (w', None) => (w', None)
      | (w', Some (total_replacements, files_with_logger_added, logs)) =>
          match find_files_with_console (run w') with
          | None => (w', None)
          | Some remaining_files =>
              let remaining :=
                match remaining_files with
                | [] => None
                | _ :: _ =>
                    Some (length remaining_files,
                          sumZ (map (count_console_statements (run w'))
                                  remaining_files))
                end in
              (w', Some (Complete (length files) files_with_logger_added
                           total_replacements remaining logs))
          end
      end
  end.

End MainRun.

Arguments process_files_run {World}.
Arguments main_run {World}.

(** Occurrences removed from a file, as the external count sees them. *)
Definition delta (l : file_log) : Z := (before_count l - after_count l)%Z.

Definition imports_added (logs : list file_log) : Z :=
  Z.of_nat (length (filter logger_added logs)).

(** *** A file tree with [grep] and [find] on it *)

Definition tree := list (str * str).

Fixpoint str_eqb (a b : str) : bool :=
  match a, b with
  | [], [] => true
  | x :: a', y :: b' => Ascii.eqb x y && str_eqb a' b'
  | _, _ => false
  end.

Fixpoint lookup (path : str) (t : tree) : option str :=
  match t with
  | [] => None
  | (p, c) :: t' => if str_eqb p path then Some c else lookup path t'
  end.

Fixpoint store (path content : str) (t : tree) : tree :=
  match t with
  | [] => [(path, content)]
  | (p, c) :: t' =>
      if str_eqb p path then (p, content) :: t' else (p, c) :: store path content t'
  end.

(** Text-mode reading turns [\r\n] and a lone [\r] into [\n]. *)
Fixpoint universal_newlines (s : str) : str :=
  match s with
  | [] => []
  | c :: s' =>
      if Ascii.eqb c "013"
      then NL :: match s' with
                 | d :: s'' => if Ascii.eqb d NL then universal_newlines s''
                               else universal_newlines s'
                 | [] => []
                 end
      else c :: universal_newlines s'
  end.

Definition read_tree (t : tree) (path : str) : option str :=
  option_map universal_newlines (lookup path t).

Definition write_tree (t : tree) (path content : str) : option tree :=
  Some (store path content t).

(** A line counts for [grep 'console\.\(log\|error\|warn\)']
    when one of the three names occurs in it (for a file without NUL
    bytes, which [grep] reads as text). *)
Definition console_line (l : str) : bool :=
  contains (lit "console.log") l || contains (lit "console.error") l
  || contains (lit "console.warn") l.

Definition grep_count (content : str) : nat :=
  length (filter console_line (split_on NL content)).

Definition decimal (n : nat) : str :=
  lit (NilEmpty.string_of_uint (Nat.to_uint n)).

(** [grep -c]: the count on standard output; status 0 when a line
    matched, 1 when none did, 2 when the file cannot be read. *)
Definition grep_c (t : tree) (path : str) : outcome :=
  match lookup path t with
  | None => Completed 2 []
  | Some content =>
      let n := grep_count content in
      Completed (if n =? 0 then 1%Z else 0%Z) (decimal n ++ [NL])
  end.

Definition endswith (w s : str) : bool := startswith (rev w) (rev s).

(** What [find src -name "*.js" -type f] writes: one path per line, in
    the order of the tree.  The script receives it through [text_mode]
    (see [run_tree]). *)
Definition find_js (t : tree) : outcome :=
  Completed 0
    (concat (map (fun e => fst e ++ [NL])
               (filter (fun e => startswith (lit "src/") (fst e)
                                 && endswith (lit ".js") (fst e)) t))).

(** [text=True]: the captured output is read in text mode, so [\r\n] and
    a lone [\r] reach the script as [\n]. *)
Definition text_mode (o : outcome) : outcome :=
  match o with
  | Raised => Raised
  | Completed returncode stdout =>
      Completed returncode (universal_newlines stdout)
  end.

Definition run_tree (t : tree) (argv : list str) : outcome :=
  text_mode
    match argv with
    | [a; b; c; path] =>
        if str_eqb a (lit "grep") && str_eqb b (lit "-c")
           && str_eqb c (lit "console\.\(log\|error\|warn\)")
        then grep_c t path else Raised
    | _ =>
        if forallb (fun x => str_eqb (fst x) (snd x)) (combine argv find_argv)
           && (length argv =? length find_argv)
        then find_js t else Raised
    end.

Definition main_tree : tree -> option (tree * summary) :=
  main run_tree read_tree write_tree.

(** No path of the tree holds a line break: every line that [find] writes
    is then a path of the tree, as [find] prints it. *)
Definition plain_paths (t : tree) : Prop :=
  Forall (fun e => ~ In NL (fst e) /\ ~ In "013"%char (fst e)) t.


(** ** What the patterns mean *)

(** The character before the position reached after the text [m]. *)
Definition prev_of (prev : option ascii) (m : str) : option ascii :=
  match m with
  | [] => prev
  | _ :: _ => Some (last m NL)
  end.

(** [denotes p prev m rest gs]: at a position preceded by [prev] and
    followed by [m ++ rest], the pattern [p] matches exactly [m], with
    captured groups [gs]. *)
Inductive denotes : pattern -> option ascii -> str -> str -> list str -> Prop :=
| D_end prev rest : denotes [] prev [] rest []
| D_lit w p prev m rest gs :
    denotes p (prev_of prev w) m rest gs ->
    denotes (Lit w :: p) prev (w ++ m) rest gs
| D_many capture lo k p prev x m rest gs :
    lo <= length x ->
    forallb (in_class k) x = true ->
    denotes p (prev_of prev x) m rest gs ->
    denotes (Many capture lo k :: p) prev (x ++ m) rest
      (if capture then x :: gs else gs)
| D_bol p prev m rest gs :
    at_bol prev = true ->
    denotes p prev m rest gs ->
    denotes (Bol :: p) prev m rest gs
| D_eol p prev m rest gs :
    at_eol (m ++ rest) = true ->
    denotes p prev m rest gs ->
    denotes (Eol :: p) prev m rest gs.

(** A message between quotes [q]: not empty, and free of [q]. *)
Definition message_of (q : ascii) (msg : str) : Prop :=
  msg <> [] /\ ~ In q msg.

(** [console.error(q msg q, error);] *)
Definition error_object_call (q : ascii) (msg ws : str) : str :=
  lit "console.error(" ++ q :: msg ++ q :: lit "," ++ ws ++ lit "error);".

(** [logger.error(q msg q, { error: error.message, stack: error.stack });] *)
Definition error_object_log (q : ascii) (msg : str) : str :=
  lit "logger.error(" ++ q :: msg ++ q
    :: lit ", { error: error.message, stack: error.stack });".

(** [name(q msg q);] *)
Definition message_call (name : string) (q : ascii) (msg : str) : str :=
  lit name ++ lit "(" ++ q :: msg ++ q :: lit ");".

(** The eight call shapes the rewriter converts. *)
Inductive convertible : str -> Prop :=
| Conv_error_object q msg ws :
    q = SQ \/ q = DQ -> message_of q msg -> forallb isspace ws = true ->
    convertible (error_object_call q msg ws)
| Conv_message name q msg :
    name = "console.error"%string \/ name = "console.log"%string
    \/ name = "console.warn"%string ->
    q = SQ \/ q = DQ -> message_of q msg ->
    convertible (message_call name q msg).

(** [s] occurs in [text]. *)
Definition occurs (s text : str) : Prop :=
  exists a b, text = a ++ s ++ b.

(** A whole line of the shape [const <name> = require(<expr>);]. *)
Definition is_require_line (l : str) : Prop :=
  exists name expr,
    name <> [] /\ expr <> [] /\ ~ In NL l
    /\ l = lit "const " ++ name ++ lit " = require(" ++ expr ++ lit ");".

(** Lines put back together with newlines between them. *)
Fixpoint join_lines (ls : list str) : str :=
  match ls with
  | [] => []
  | [l] => l
  | l :: ls' => l ++ NL :: join_lines ls'
  end.

(** The matcher run on a line by itself. *)
Definition require_line_b (l : str) : bool :=
  match match_here require_pattern false None l with
  | Some _ => true
  | None => false
  end.

(** What the scan for the import pattern yields, line by line. *)
Definition line_tokens (l : str) : list token :=
  if require_line_b l then [Hit (length l) []] else map Copy l.

Fixpoint lines_tokens (ls : list str) : list token :=
  match ls with
  | [] => []
  | [l] => line_tokens l
  | l :: ls' => line_tokens l ++ Copy NL :: lines_tokens ls'
  end.

(** Characters covered by a list of tokens. *)
Fixpoint width (ts : list token) : nat :=
  match ts with
  | [] => 0
  | Copy _ :: ts' => S (width ts')
  | Hit n _ :: ts' => n + width ts'
  end.

(** ** Sample files *)

(** [src/app.js]: an import, two convertible calls on one line and a call
    the rewriter does not convert. *)
Definition app_js : str :=
  lit "const x = require('x');" ++ NL
    :: lit "console.log('a'); console.log('b');" ++ NL
    :: lit "console.log(x);" ++ [NL].

Definition app_js_once : str :=
  lit "const x = require('x');" ++ NL
    :: lit "const logger = require('utils/logger');" ++ NL
    :: lit "logger.info('a'); logger.info('b');" ++ NL
    :: lit "console.log(x);" ++ [NL].

Definition app_js_twice : str :=
  lit "const x = require('x');" ++ NL
    :: lit "const logger = require('utils/logger');" ++ NL
    :: lit "const logger = require('utils/logger');" ++ NL
    :: lit "logger.info('a'); logger.info('b');" ++ NL
    :: lit "console.log(x);" ++ [NL].

Definition app_tree : tree := [(lit "src/app.js", app_js)].

Definition app_log : file_log :=
  {| log_path := lit "src/app.js"; before_count := 2; logger_added := true;
     replacements := 2; after_count := 1 |}.

(** The two files of the end-to-end scenario. *)
Definition a_js : str :=
  lit "const x = require('x');" ++ NL :: lit "console.warn('careful');" ++ [NL].

Definition b_js : str := lit "console.log('ok');" ++ [NL].

Definition two_file_tree : tree :=
  [(lit "src/a.js", a_js); (lit "src/deep/b.js", b_js)].

(** Two texts agree when one is a prefix of the other. *)
Fixpoint agree (a b : str) : bool :=
  match a, b with
  | x :: a', y :: b' => Ascii.eqb x y && agree a' b'
  | _, _ => true
  end.

(** All the suffixes of a text, the longest first. *)
Fixpoint tails (s : str) : list str :=
  s :: match s with
       | [] => []
       | _ :: s' => tails s'
       end.

Definition is_nil (s : str) : bool :=
  match s with [] => true | _ :: _ => false end.

(** No suffix of [w] (the empty one apart) lines up with [h]: a text that
    starts with [h] cannot start inside [w]. *)
Definition no_start (w h : str) : bool :=
  forallb (fun x => is_nil x || negb (agree x h)) (tails w).

(** What follows the closing quote in the shapes the rules match. *)
Definition tail_ok (tail : str) : Prop :=
  tail = lit ");"
  \/ exists ws, forallb isspace ws = true /\ tail = lit "," ++ ws ++ lit "error);".

Definition console_name (name : string) : Prop :=
  name = "console.error"%string \/ name = "console.log"%string
  \/ name = "console.warn"%string.

(** A tree whose one file holds no console call. *)
Definition quiet_tree : tree :=
  [(lit "src/quiet.js", lit "const x = require('x');" ++ NL :: lit "x();" ++ [NL])].

(** The scenario tree with a file that holds no console call. *)
Definition mixed_tree : tree :=
  (lit "src/lib/util.js", lit "module.exports = {};" ++ [NL]) :: two_file_tree.

(** A call [name(q msg q tl]. *)
Definition quoted_call (name : string) (q : ascii) (msg tl : str) : str :=
  lit name ++ lit "(" ++ q :: msg ++ q :: tl.

Definition logger_name (name : string) : Prop :=
  name = "logger.error"%string \/ name = "logger.info"%string
  \/ name = "logger.warn"%string.

(** A call of one of the eight shapes, with its message, and the call the
    rules turn it into. *)
Inductive logged_as (msg : str) : str -> str -> Prop :=
| Logged_error_object q ws :
    q = SQ \/ q = DQ -> forallb isspace ws = true ->
    logged_as msg (error_object_call q msg ws) (error_object_log q msg)
| Logged_error q :
    q = SQ \/ q = DQ ->
    logged_as msg (message_call "console.error" q msg)
      (message_call "logger.error" q msg)
| Logged_log q :
    q = SQ \/ q = DQ ->
    logged_as msg (message_call "console.log" q msg)
      (message_call "logger.info" q msg)
| Logged_warn q :
    q = SQ \/ q = DQ ->
    logged_as msg (message_call "console.warn" q msg)
      (message_call "logger.warn" q msg).

(** A tail without quotes in which no [console.] starts. *)
Definition plain_tail (tl : str) : Prop :=
  ~ In SQ tl /\ ~ In DQ tl
  /\ forall t1 t2 b z,
      tl = t1 ++ t2 -> t2 <> [] -> t2 ++ b = lit "console." ++ z -> False.

(** ** Text lemmas *)

Lemma strip_prefix_app (w s : str) : strip_prefix w (w ++ s) = Some s.
Proof.
  induction w as [|a w IH]; simpl; [reflexivity|].
  now rewrite Ascii.eqb_refl.
Qed.

Lemma strip_prefix_Some (w s s' : str) :
  strip_prefix w s = Some s' -> s = w ++ s'.
Proof.
  revert s; induction w as [|a w IH]; simpl; intros s H.
  - now inversion H.
  - destruct s as [|c s]; [discriminate|].
    destruct (Ascii.eqb a c) eqn:E; [|discriminate].
    apply Ascii.eqb_eq in E; subst c. f_equal. now apply IH.
Qed.

Lemma startswith_true (w s : str) :
  startswith w s = true <-> exists s', s = w ++ s'.
Proof.
  unfold startswith; split.
  - destruct (strip_prefix w s) eqn:E; [|discriminate].
    intros _. exists s0. now apply strip_prefix_Some.
  - intros [s' ->]. now rewrite strip_prefix_app.
Qed.

Lemma contains_occurs (needle hay : str) :
  contains needle hay = true <-> occurs needle hay.
Proof.
  split.
  - induction hay as [|c hay IH]; simpl.
    + destruct (startswith needle []) eqn:E; [|discriminate].
      intros _. apply startswith_true in E as [s' E].
      exists [], s'. exact E.
    + destruct (startswith needle (c :: hay)) eqn:E.
      * intros _. apply startswith_true in E as [s' E].
        exists [], s'. exact E.
      * intros H. destruct (IH H) as (a & b & ->).
        exists (c :: a), b. reflexivity.
  - intros (a & b & ->). induction a as [|c a IH].
    + assert (E : startswith needle (needle ++ b) = true)
        by (apply startswith_true; now exists b).
      simpl app. destruct (needle ++ b); simpl; now rewrite E.
    + simpl. rewrite IH. now destruct (startswith needle (c :: a ++ needle ++ b)).
Qed.

Lemma nth_error_last (c : ascii) (m rest : str) :
  nth_error ((c :: m) ++ rest) (length m) = Some (last (c :: m) NL).
Proof.
  revert c. induction m as [|d m IH]; intros c; [reflexivity|].
  exact (IH d).
Qed.

Lemma prev_after_app (prev : option ascii) (m rest : str) :
  prev_after prev (m ++ rest) (length m) = prev_of prev m.
Proof.
  destruct m as [|c m]; [reflexivity|]. apply nth_error_last.
Qed.

Lemma last_app_cons (a : str) (c : ascii) (b : str) (d : ascii) :
  last (a ++ c :: b) d = last (c :: b) d.
Proof.
  induction a as [|x a IH]; [reflexivity|].
  simpl app. rewrite <- IH. destruct (a ++ c :: b) eqn:E; [|reflexivity].
  now destruct a.
Qed.

Lemma prev_of_app (prev : option ascii) (a b : str) :
  prev_of prev (a ++ b) = prev_of (prev_of prev a) b.
Proof.
  destruct b as [|c b].
  - rewrite app_nil_r. reflexivity.
  - destruct a as [|d a]; [reflexivity|].
    unfold prev_of at 1 3. simpl app.
    change (d :: a ++ c :: b) with ((d :: a) ++ c :: b).
    rewrite last_app_cons. reflexivity.
Qed.

Lemma run_length_le (k : cclass) (s : str) : run_length k s <= length s.
Proof.
  induction s as [|c s IH]; simpl; [lia|].
  destruct (in_class k c); simpl; lia.
Qed.

Lemma run_length_firstn (k : cclass) (s : str) (n : nat) :
  n <= run_length k s -> forallb (in_class k) (firstn n s) = true.
Proof.
  revert n; induction s as [|c s IH]; intros [|n] H; simpl in *;
    try reflexivity; try lia.
  destruct (in_class k c); [|lia]. simpl. apply IH. lia.
Qed.

Lemma run_length_app_ge (k : cclass) (x s : str) :
  forallb (in_class k) x = true -> length x <= run_length k (x ++ s).
Proof.
  induction x as [|c x IH]; simpl; [lia|].
  intros H. apply andb_true_iff in H as [-> H]. specialize (IH H). lia.
Qed.

Lemma first_down_Some (A : Type) (f : nat -> option A) (lo n : nat) (r : A) :
  first_down f lo n = Some r -> exists j, lo <= j <= n /\ f j = Some r.
Proof.
  induction n as [|n IH]; simpl.
  - destruct (0 <? lo) eqn:E; [discriminate|].
    apply Nat.ltb_ge in E. destruct (f 0) eqn:F; [|discriminate].
    intros H; inversion H; subst. exists 0. split; [lia|assumption].
  - destruct (S n <? lo) eqn:E; [discriminate|].
    apply Nat.ltb_ge in E. destruct (f (S n)) eqn:F.
    + intros H; inversion H; subst. exists (S n). split; [lia|assumption].
    + intros H. destruct (IH H) as (j & Hj & Fj). exists j. split; [lia|assumption].
Qed.

Lemma first_down_None (A : Type) (f : nat -> option A) (lo n : nat) :
  first_down f lo n = None -> forall j, lo <= j <= n -> f j = None.
Proof.
  induction n as [|n IH]; simpl.
  - destruct (0 <? lo) eqn:E.
    + apply Nat.ltb_lt in E. intros _ j Hj. lia.
    + destruct (f 0) eqn:F; [discriminate|].
      intros _ j Hj. replace j with 0 by lia. assumption.
  - destruct (S n <? lo) eqn:E.
    + apply Nat.ltb_lt in E. intros _ j Hj. lia.
    + destruct (f (S n)) eqn:F; [discriminate|].
      intros H j Hj. destruct (Nat.eq_dec j (S n)) as [->|Hne]; [assumption|].
      apply IH; [assumption|lia].
Qed.

Lemma first_down_top (A : Type) (f : nat -> option A) (lo n : nat) (r : A) :
  lo <= n -> f n = Some r -> first_down f lo n = Some r.
Proof.
  intros Hlo F. destruct n; simpl.
  - replace (0 <? lo) with false by (symmetry; apply Nat.ltb_ge; lia).
    now rewrite F.
  - replace (S n <? lo) with false by (symmetry; apply Nat.ltb_ge; lia).
    now rewrite F.
Qed.

(** ** The matcher against the meaning of patterns *)

Lemma prev_after_firstn (prev : option ascii) (s : str) (j : nat) :
  j <= length s -> prev_after prev s j = prev_of prev (firstn j s).
Proof.
  intros H. rewrite <- (prev_after_app prev (firstn j s) (skipn j s)).
  rewrite firstn_skipn, firstn_length_le by assumption. reflexivity.
Qed.

Lemma shift_Some n cap r m gs :
  shift n cap r = Some (m, gs) ->
  exists m' gs', r = Some (m', gs') /\ m = n + m'
                 /\ gs = match cap with Some g => g :: gs' | None => gs' end.
Proof.
  destruct r as [[m' gs']|]; simpl; [|discriminate].
  intros H; inversion H; subst. now exists m', gs'.
Qed.

(** Whatever the matcher returns is a match. *)
Lemma match_here_sound (p : pattern) :
  forall adv prev s n gs,
    match_here p adv prev s = Some (n, gs) ->
    exists m rest,
      s = m ++ rest /\ length m = n /\ denotes p prev m rest gs
      /\ (adv = true -> m <> []).
Proof.
  induction p as [|i p IH]; intros adv prev s n gs H; simpl in H.
  - destruct adv; [discriminate|]. inversion H; subst.
    exists [], s. repeat split; [constructor|discriminate].
  - destruct i as [w|capture lo k| |].
    + destruct (strip_prefix w s) as [s'|] eqn:E; [|discriminate].
      apply strip_prefix_Some in E; subst s.
      apply shift_Some in H as (m' & gs' & H & -> & ->).
      rewrite prev_after_app in H.
      apply IH in H as (m & rest & -> & <- & D & A).
      exists (w ++ m), rest. rewrite app_assoc, length_app.
      repeat split; [now constructor|].
      intros ->. destruct w; [|discriminate]. simpl in A. now apply A.
    + apply first_down_Some in H as (j & Hj & H).
      apply shift_Some in H as (m' & gs' & H & -> & ->).
      pose proof (run_length_le k s) as Hle.
      pose proof (run_length_firstn k s j (proj2 Hj)) as Hall.
      assert (Hlen : length (firstn j s) = j) by (apply firstn_length_le; lia).
      rewrite prev_after_firstn in H by lia.
      apply IH in H as (m & rest & E & <- & D & A).
      exists (firstn j s ++ m), rest.
      rewrite <- app_assoc, <- E, firstn_skipn, length_app, Hlen.
      repeat split.
      * destruct capture;
          [apply (@D_many true lo k p prev (firstn j s) m rest gs')
          |apply (@D_many false lo k p prev (firstn j s) m rest gs')];
          try assumption; lia.
      * intros ->. destruct (firstn j s) eqn:F; [|discriminate].
        simpl in Hlen, A. subst j. now apply A.
    + destruct (at_bol prev) eqn:B; [|discriminate].
      apply IH in H as (m & rest & -> & <- & D & A).
      exists m, rest. repeat split; [now constructor|assumption].
    + destruct (at_eol s) eqn:B; [|discriminate].
      apply IH in H as (m & rest & -> & <- & D & A).
      exists m, rest. repeat split; [now constructor|assumption].
Qed.

(** Wherever a match exists the matcher returns one. *)
Lemma match_here_complete (p : pattern) :
  forall prev m rest gs,
    denotes p prev m rest gs ->
    forall adv, (adv = true -> m <> []) ->
    exists n gs', match_here p adv prev (m ++ rest) = Some (n, gs').
Proof.
  intros prev m rest gs D.
  induction D as [prev rest|w p prev m rest gs D IH
                 |capture lo k p prev x m rest gs Hlo Hall D IH
                 |p prev m rest gs B D IH|p prev m rest gs B D IH];
    intros adv A; simpl.
  - destruct adv; [now destruct A|]. now exists 0, [].
  - rewrite <- app_assoc, strip_prefix_app, prev_after_app.
    destruct (IH (adv && (length w =? 0))) as (n & gs' & ->).
    { intros H. apply andb_true_iff in H as [-> H].
      apply Nat.eqb_eq in H. destruct w; [|discriminate]. now apply A. }
    now exists (length w + n), gs'.
  - rewrite <- app_assoc.
    match goal with |- exists n gs', first_down ?f _ _ = _ =>
      destruct (first_down f lo (run_length k (x ++ m ++ rest))) as [[n gs']|] eqn:F
    end; [now exists n, gs'|exfalso].
    assert (Hr : lo <= length x <= run_length k (x ++ m ++ rest))
      by (split; [assumption|now apply run_length_app_ge]).
    pose proof (@first_down_None _ _ _ _ F _ Hr) as Hn. cbv beta in Hn.
    rewrite skipn_app, skipn_all, Nat.sub_diag, prev_after_app in Hn.
    simpl in Hn.
    destruct (IH (adv && (length x =? 0))) as (n & gs' & E).
    { intros H. apply andb_true_iff in H as [-> H].
      apply Nat.eqb_eq in H. destruct x; [|discriminate]. now apply A. }
    rewrite E in Hn. discriminate.
  - rewrite B. now apply IH.
  - rewrite B. now apply IH.
Qed.

(** ** The scan *)

Lemma prev_of_cons (prev : option ascii) (c : ascii) (a : str) :
  prev_of prev (c :: a) = prev_of (Some c) a.
Proof. exact (prev_of_app prev [c] a). Qed.

Lemma render_copy (t : template) (s : str) : render t (map Copy s) = s.
Proof.
  unfold render. induction s as [|c s IH]; simpl; [reflexivity|].
  f_equal. exact IH.
Qed.

Lemma hits_copy (s : str) : hits (map Copy s) = 0.
Proof. unfold hits. induction s as [|c s IH]; simpl; [reflexivity|exact IH]. Qed.

(** Where the pattern matches nowhere, the scan copies every character. *)
Lemma scan_quiet (p : pattern) (s : str) :
  forall prev,
    (forall a b, s = a ++ b -> match_here p false (prev_of prev a) b = None) ->
    scan p 0 prev s = map Copy s.
Proof.
  induction s as [|c s IH]; intros prev H; simpl.
  - pose proof (H [] [] eq_refl) as E. simpl in E. now rewrite E.
  - pose proof (H [] (c :: s) eq_refl) as E. simpl in E. rewrite E.
    f_equal. apply IH.
    intros a b ->. rewrite <- (prev_of_cons prev). now apply H.
Qed.

(** A scan without a hit means that the pattern matches nowhere. *)
Lemma scan_no_hit (p : pattern) (s : str) :
  forall prev,
    hits (scan p 0 prev s) = 0 ->
    forall a b, s = a ++ b -> match_here p false (prev_of prev a) b = None.
Proof.
  induction s as [|c s IH]; intros prev H a b E.
  - destruct a; [|discriminate]. destruct b; [|discriminate].
    simpl in *. destruct (match_here p false prev []) as [[n gs]|];
      [discriminate|reflexivity].
  - simpl in H.
    destruct (match_here p false prev (c :: s)) as [[[|n] gs]|] eqn:M.
    + destruct (match_here p true prev (c :: s)) as [[[|n'] gs']|];
        discriminate.
    + discriminate.
    + destruct a as [|d a].
      * simpl in E. subst b. exact M.
      * injection E as <- ->. rewrite prev_of_cons. now apply (IH (Some c) H).
Qed.

Lemma subn_quiet (p : pattern) (t : template) (s : str) :
  (forall a b, s = a ++ b -> match_here p false (prev_of None a) b = None) ->
  subn p t s = (s, 0).
Proof.
  intros H. unfold subn. rewrite (scan_quiet p s None H).
  now rewrite render_copy, hits_copy.
Qed.

Lemma subn_no_hit (p : pattern) (t : template) (s : str) :
  snd (subn p t s) = 0 -> subn p t s = (s, 0).
Proof.
  intros H. apply subn_quiet. apply scan_no_hit. exact H.
Qed.

(** ** The shapes of the rules *)

Lemma noneof_forallb (q : ascii) (x : str) :
  forallb (in_class (NoneOf q)) x = true <-> ~ In q x.
Proof.
  induction x as [|c x IH]; simpl.
  - split; [intros _ []|reflexivity].
  - rewrite andb_true_iff, IH, negb_true_iff. split.
    + intros [E N] [->|I]; [now rewrite Ascii.eqb_refl in E|now apply N].
    + intros N. split.
      * apply Ascii.eqb_neq. intros ->. apply N. now left.
      * intros I. apply N. now right.
Qed.

Ltac inv_denotes :=
  repeat match goal with
         | H : denotes (_ :: _) _ _ _ _ |- _ => inversion H; clear H; subst
         | H : denotes [] _ _ _ _ |- _ => inversion H; clear H; subst
         end.

Lemma error_object_denotes (q : ascii) prev m rest gs :
  denotes (fst (error_object_rule q)) prev m rest gs <->
  exists msg ws, message_of q msg /\ forallb isspace ws = true
                 /\ m = error_object_call q msg ws /\ gs = [msg].
Proof.
  split.
  - intros D. unfold error_object_rule, fst, group_plus, star in D.
    inv_denotes. exists x, x0. split; [split|split; [|split]].
    + intros ->. simpl in *. lia.
    + now apply noneof_forallb.
    + assumption.
    + unfold error_object_call. rewrite app_nil_r. reflexivity.
    + reflexivity.
  - intros (msg & ws & [Hne Hq] & Hws & -> & ->).
    unfold error_object_rule, fst, error_object_call.
    replace (lit "console.error(" ++ q :: msg ++ q :: lit "," ++ ws ++ lit "error);")
      with ((lit "console.error(" ++ [q]) ++ msg ++ (q :: lit ",") ++ ws
              ++ lit "error);" ++ [])
      by (rewrite app_nil_r, <- !app_assoc; reflexivity).
    apply D_lit. apply (@D_many true 1 (NoneOf q)).
    + destruct msg; [now destruct Hne|simpl; lia].
    + now apply noneof_forallb.
    + apply D_lit. apply (@D_many false 0 Space); [lia|assumption|].
      apply D_lit. constructor.
Qed.

Lemma message_denotes (from to : string) (q : ascii) prev m rest gs :
  denotes (fst (message_rule from to q)) prev m rest gs <->
  exists msg, message_of q msg /\ m = message_call from q msg /\ gs = [msg].
Proof.
  split.
  - intros D. unfold message_rule, fst, group_plus in D.
    inv_denotes. exists x. split; [split|split].
    + intros ->. simpl in *. lia.
    + now apply noneof_forallb.
    + unfold message_call. rewrite app_nil_r, <- ?app_assoc. reflexivity.
    + reflexivity.
  - intros (msg & [Hne Hq] & -> & ->).
    unfold message_rule, fst, message_call.
    replace (lit from ++ lit "(" ++ q :: msg ++ q :: lit ");")
      with ((lit from ++ lit "(" ++ [q]) ++ msg ++ (q :: lit ");") ++ [])
      by (rewrite app_nil_r, <- !app_assoc; reflexivity).
    apply D_lit. apply (@D_many true 1 (NoneOf q)).
    + destruct msg; [now destruct Hne|simpl; lia].
    + now apply noneof_forallb.
    + apply D_lit. constructor.
Qed.

(** The patterns of the rules match exactly the convertible shapes. *)
Lemma rules_convertible (m : str) :
  convertible m <->
  exists r prev rest gs, In r rules /\ denotes (fst r) prev m rest gs.
Proof.
  split.
  - intros [q msg ws Hq Hm Hws|name q msg Hn Hq Hm].
    + exists (error_object_rule q), None, [], [msg]. split.
      * destruct Hq as [->| ->]; simpl; auto.
      * apply error_object_denotes. now exists msg, ws.
    + destruct Hn as [->|[->| ->]].
      * exists (message_rule "console.error" "logger.error" q), None, [], [msg].
        split; [destruct Hq as [->| ->]; simpl; auto 10|].
        apply message_denotes. now exists msg.
      * exists (message_rule "console.log" "logger.info" q), None, [], [msg].
        split; [destruct Hq as [->| ->]; simpl; auto 10|].
        apply message_denotes. now exists msg.
      * exists (message_rule "console.warn" "logger.warn" q), None, [], [msg].
        split; [destruct Hq as [->| ->]; simpl; auto 10|].
        apply message_denotes. now exists msg.
  - intros (r & prev & rest & gs & I & D).
    unfold rules in I. simpl in I.
    repeat destruct I as [<-|I]; try contradiction;
      first [ apply error_object_denotes in D
              as (msg & ws & Hm & Hws & -> & _);
              apply Conv_error_object; auto
            | apply message_denotes in D as (msg & Hm & -> & _);
              apply Conv_message; auto ].
Qed.

(** A convertible call is matched by one of the rules wherever it stands. *)
Lemma convertible_rule (m : str) :
  convertible m ->
  exists r gs, In r rules /\ forall prev rest, denotes (fst r) prev m rest gs.
Proof.
  intros [q msg ws Hq Hm Hws|name q msg Hn Hq Hm].
  - exists (error_object_rule q), [msg]. split.
    + destruct Hq as [->| ->]; simpl; auto.
    + intros prev rest. apply error_object_denotes. now exists msg, ws.
  - destruct Hn as [->|[->| ->]].
    + exists (message_rule "console.error" "logger.error" q), [msg].
      split; [destruct Hq as [->| ->]; simpl; auto 10|].
      intros prev rest. apply message_denotes. now exists msg.
    + exists (message_rule "console.log" "logger.info" q), [msg].
      split; [destruct Hq as [->| ->]; simpl; auto 10|].
      intros prev rest. apply message_denotes. now exists msg.
    + exists (message_rule "console.warn" "logger.warn" q), [msg].
      split; [destruct Hq as [->| ->]; simpl; auto 10|].
      intros prev rest. apply message_denotes. now exists msg.
Qed.

(** ** The rewriter as a whole *)

Lemma apply_rule_eq (text : str) (n : nat) (r : rule) :
  apply_rule (text, n) r
  = (fst (subn (fst r) (snd r) text), n + snd (subn (fst r) (snd r) text)).
Proof.
  unfold apply_rule. cbn [fst snd].
  destruct (subn (fst r) (snd r) text). reflexivity.
Qed.

Lemma apply_rules_count_le (rs : list rule) :
  forall text n, n <= snd (fold_left apply_rule rs (text, n)).
Proof.
  induction rs as [|r rs IH]; intros text n; simpl; [lia|].
  rewrite apply_rule_eq.
  specialize (IH (fst (subn (fst r) (snd r) text))
                (n + snd (subn (fst r) (snd r) text))). lia.
Qed.

(** Rules that find nothing leave the text alone. *)
Lemma apply_rules_quiet (rs : list rule) (text : str) (n : nat) :
  (forall r, In r rs -> subn (fst r) (snd r) text = (text, 0)) ->
  fold_left apply_rule rs (text, n) = (text, n).
Proof.
  induction rs as [|r rs IH]; intros H; simpl; [reflexivity|].
  rewrite apply_rule_eq, (H r (or_introl eq_refl)). simpl fst; simpl snd.
  rewrite Nat.add_0_r. apply IH. intros r' I. apply H. now right.
Qed.

(** A pass that counts nothing found nothing, rule by rule. *)
Lemma apply_rules_zero (rs : list rule) (text : str) :
  snd (fold_left apply_rule rs (text, 0)) = 0 ->
  forall r, In r rs -> snd (subn (fst r) (snd r) text) = 0.
Proof.
  induction rs as [|r rs IH]; intros H r' I; [destruct I|].
  simpl in H. rewrite apply_rule_eq in H.
  pose proof (apply_rules_count_le rs (fst (subn (fst r) (snd r) text))
                (0 + snd (subn (fst r) (snd r) text))) as Hle.
  assert (Z : snd (subn (fst r) (snd r) text) = 0) by lia.
  destruct I as [<-|I]; [exact Z|].
  rewrite (subn_no_hit (fst r) (snd r) text Z) in H. simpl in H.
  now apply IH.
Qed.

(** Where a convertible call occurs, the rule for it matches there. *)
Lemma occurrence_matched (a m b : str) :
  convertible m ->
  exists r, In r rules
            /\ match_here (fst r) false (prev_of None a) (m ++ b) <> None.
Proof.
  intros C. destruct (convertible_rule m C) as (r & gs & I & D).
  exists r. split; [assumption|].
  destruct (match_here_complete (fst r) (prev_of None a) m b gs (D _ _) false)
    as (n & gs' & E); [discriminate|].
  rewrite E. discriminate.
Qed.

(** Every match of a rule is an occurrence of a convertible call. *)
Lemma match_convertible (r : rule) (a b : str) :
  In r rules ->
  match_here (fst r) false (prev_of None a) b <> None ->
  exists m rest, b = m ++ rest /\ convertible m.
Proof.
  intros I H.
  destruct (match_here (fst r) false (prev_of None a) b) as [[n gs]|] eqn:E;
    [|now destruct H].
  apply match_here_sound in E as (m & rest & -> & _ & D & _).
  exists m, rest. split; [reflexivity|].
  apply rules_convertible. now exists r, (prev_of None a), rest, gs.
Qed.

Lemma convertible_counted (text m : str) :
  occurs m text -> convertible m ->
  1 <= snd (replace_console_statements text).
Proof.
  intros (a & b & ->) C.
  destruct (snd (replace_console_statements (a ++ m ++ b))) eqn:Z; [|lia].
  exfalso. destruct (occurrence_matched a m b C) as (r & I & M).
  apply M. apply scan_no_hit with (s := a ++ m ++ b); [|reflexivity].
  exact (apply_rules_zero rules (a ++ m ++ b) Z r I).
Qed.

(** A text without a match, decided by running the matcher everywhere. *)
Lemma search_false (p : pattern) (s : str) :
  forall prev,
    search p prev s = false ->
    forall a b, s = a ++ b -> match_here p false (prev_of prev a) b = None.
Proof.
  induction s as [|c s IH]; intros prev H a b E; simpl in H.
  - destruct a; [|discriminate]. destruct b; [|discriminate]. simpl.
    now destruct (match_here p false prev []).
  - destruct (match_here p false prev (c :: s)) eqn:M; [discriminate|].
    destruct a as [|d a].
    + simpl in E. subst b. exact M.
    + injection E as <- ->. rewrite prev_of_cons. now apply (IH (Some c) H).
Qed.

Lemma search_no_convertible (text : str) :
  forallb (fun r => negb (search (fst r) None text)) rules = true ->
  forall m, occurs m text -> ~ convertible m.
Proof.
  intros H m (a & b & ->) C.
  destruct (occurrence_matched a m b C) as (r & I & M). apply M.
  rewrite forallb_forall in H. specialize (H r I).
  apply negb_true_iff in H.
  now apply (search_false (fst r) (a ++ m ++ b) None H).
Qed.

(** ** Lines *)

Lemma split_on_cons (c : ascii) (s : str) :
  exists l ls, split_on c s = l :: ls.
Proof.
  destruct s as [|x s]; simpl; [now exists [], []|].
  destruct (Ascii.eqb x c); [now eexists _, _|].
  destruct (split_on c s); now eexists _, _.
Qed.

Lemma join_lines_cons (l : str) (l' : str) (ls : list str) :
  join_lines (l :: l' :: ls) = l ++ NL :: join_lines (l' :: ls).
Proof. reflexivity. Qed.

Lemma join_split (s : str) : join_lines (split_on NL s) = s.
Proof.
  induction s as [|x s IH]; [reflexivity|]. simpl.
  destruct (split_on_cons NL s) as (l & ls & E). rewrite E in *.
  destruct (Ascii.eqb x NL) eqn:X.
  - apply Ascii.eqb_eq in X; subst x. rewrite join_lines_cons, IH. reflexivity.
  - destruct ls as [|l' ls].
    + simpl in *. now rewrite IH.
    + rewrite join_lines_cons in IH. rewrite join_lines_cons.
      rewrite <- app_comm_cons. now rewrite IH.
Qed.

Lemma split_no_newline (s : str) :
  Forall (fun l => ~ In NL l) (split_on NL s).
Proof.
  induction s as [|x s IH]; simpl.
  - constructor; [intros []|constructor].
  - destruct (Ascii.eqb x NL) eqn:X.
    + constructor; [intros []|assumption].
    + destruct (split_on NL s) as [|l ls]; [repeat constructor|].
      * intros [->|[]]. now rewrite Ascii.eqb_refl in X.
      * inversion IH; subst. constructor; [|assumption].
        intros [->|I]; [now rewrite Ascii.eqb_refl in X|contradiction].
Qed.

Lemma split_line (l : str) (rest : list str) :
  ~ In NL l ->
  split_on NL (l ++ NL :: join_lines rest)
  = l :: split_on NL (join_lines rest).
Proof.
  induction l as [|x l IH]; intros N; simpl.
  - reflexivity.
  - destruct (Ascii.eqb x NL) eqn:X.
    + apply Ascii.eqb_eq in X. subst x. exfalso. apply N. now left.
    + rewrite IH; [reflexivity|]. intros I. apply N. now right.
Qed.

Lemma split_single (l : str) : ~ In NL l -> split_on NL l = [l].
Proof.
  induction l as [|x l IH]; intros N; simpl; [reflexivity|].
  destruct (Ascii.eqb x NL) eqn:X.
  - apply Ascii.eqb_eq in X. subst x. exfalso. apply N. now left.
  - rewrite IH; [reflexivity|]. intros I. apply N. now right.
Qed.

Lemma split_join (ls : list str) :
  ls <> [] -> Forall (fun l => ~ In NL l) ls ->
  split_on NL (join_lines ls) = ls.
Proof.
  induction ls as [|l ls IH]; intros Hne F; [now destruct Hne|].
  inversion F as [|? ? N F']; subst.
  destruct ls as [|l' ls].
  - simpl. now apply split_single.
  - rewrite join_lines_cons, split_line by assumption.
    f_equal. apply IH; [discriminate|assumption].
Qed.

Lemma join_lines_app (a : list str) (l : str) (b : list str) :
  join_lines (a ++ l :: b)
  = join_lines (a ++ [l]) ++ match b with
                             | [] => []
                             | _ :: _ => NL :: join_lines b
                             end.
Proof.
  induction a as [|x a IH].
  - destruct b; simpl; [now rewrite app_nil_r|reflexivity].
  - destruct a as [|y a].
    + simpl app in *. rewrite !join_lines_cons. rewrite IH.
      simpl. now rewrite <- app_assoc.
    + simpl app in *. rewrite !join_lines_cons. rewrite IH.
      now rewrite <- app_assoc.
Qed.

(** ** The import pattern *)

Lemma dot_forallb (x : str) :
  forallb (in_class Dot) x = true <-> ~ In NL x.
Proof.
  induction x as [|c x IH]; simpl.
  - split; [intros _ []|reflexivity].
  - rewrite andb_true_iff, IH, negb_true_iff. split.
    + intros [E N] [->|I]; [now rewrite Ascii.eqb_refl in E|now apply N].
    + intros N. split.
      * apply Ascii.eqb_neq. intros ->. apply N. now left.
      * intros I. apply N. now right.
Qed.

Lemma not_in_app (c : ascii) (a b : str) :
  ~ In c (a ++ b) <-> ~ In c a /\ ~ In c b.
Proof.
  rewrite in_app_iff. tauto.
Qed.

Lemma require_denotes prev m rest gs :
  denotes require_pattern prev m rest gs <->
  at_bol prev = true /\ at_eol rest = true /\ gs = [] /\ is_require_line m.
Proof.
  split.
  - intros D. unfold require_pattern, plus in D. inv_denotes.
    rewrite app_nil_r in *. simpl app in *.
    repeat split; try assumption.
    exists x, x0. repeat split.
    + intros ->. simpl in *. lia.
    + intros ->. simpl in *. lia.
    + change (~ In NL (lit "const " ++ x ++ lit " = require(" ++ x0 ++ lit ");")).
      rewrite !not_in_app. rewrite <- !dot_forallb.
      repeat split; try assumption; reflexivity.
  - intros (B & E & -> & name & expr & Hn & He & N & ->).
    rewrite !not_in_app in N. destruct N as (_ & Nn & _ & Ne & _).
    unfold require_pattern.
    replace (lit "const " ++ name ++ lit " = require(" ++ expr ++ lit ");")
      with (lit "const " ++ name ++ lit " = require(" ++ expr ++ lit ");" ++ [])
      by now rewrite app_nil_r.
    apply D_bol; [assumption|]. apply D_lit.
    apply (D_many false 1 Dot);
      [destruct name; [now destruct Hn|simpl; lia]|now apply dot_forallb|].
    apply D_lit.
    apply (D_many false 1 Dot);
      [destruct expr; [now destruct He|simpl; lia]|now apply dot_forallb|].
    apply D_lit. apply D_eol; [assumption|]. constructor.
Qed.

(** A text splits in one way only into a line and what follows it. *)
Lemma line_split_unique (l m rest rest' : str) :
  ~ In NL l -> ~ In NL m -> at_eol rest = true -> at_eol rest' = true ->
  l ++ rest = m ++ rest' -> l = m.
Proof.
  revert m. induction l as [|c l IH]; intros m Nl Nm El Em E.
  - destruct m as [|d m]; [reflexivity|]. simpl in E. subst rest.
    simpl in El. apply Ascii.eqb_eq in El. subst d.
    exfalso. apply Nm. now left.
  - destruct m as [|d m].
    + simpl in E. subst rest'. simpl in Em. apply Ascii.eqb_eq in Em. subst c.
      exfalso. apply Nl. now left.
    + injection E as <- E. f_equal.
      apply (IH m); try assumption.
      * intros I. apply Nl. now right.
      * intros I. apply Nm. now right.
Qed.

Lemma is_require_line_no_newline (l : str) : is_require_line l -> ~ In NL l.
Proof. now intros (name & expr & _ & _ & N & _). Qed.

Lemma require_line_b_true (l : str) :
  ~ In NL l -> (require_line_b l = true <-> is_require_line l).
Proof.
  intros N. unfold require_line_b. split.
  - destruct (match_here require_pattern false None l) as [[n gs]|] eqn:M;
      [intros _|discriminate].
    apply match_here_sound in M as (m & rest & E & _ & D & _).
    apply require_denotes in D as (_ & Er & _ & R).
    replace l with m; [assumption|].
    symmetry. apply (line_split_unique l m [] rest); try assumption.
    + now apply is_require_line_no_newline.
    + reflexivity.
    + now rewrite app_nil_r.
  - intros R.
    destruct (match_here_complete require_pattern None l [] [])
      with (adv := false) as (n & gs & M).
    + apply require_denotes. now repeat split.
    + discriminate.
    + rewrite app_nil_r in M. now rewrite M.
Qed.

(** At the start of a line the matcher takes the whole line or nothing. *)
Lemma match_line (l rest : str) (prev : option ascii) :
  ~ In NL l -> at_bol prev = true -> at_eol rest = true ->
  match_here require_pattern false prev (l ++ rest)
  = if require_line_b l then Some (length l, []) else None.
Proof.
  intros N B E.
  destruct (match_here require_pattern false prev (l ++ rest))
    as [[n gs]|] eqn:M.
  - apply match_here_sound in M as (m & rest' & E' & <- & D & _).
    apply require_denotes in D as (_ & Er & -> & R).
    assert (l = m).
    { apply (line_split_unique l m rest rest'); try assumption.
      now apply is_require_line_no_newline. }
    subst m. apply (require_line_b_true l N) in R. now rewrite R.
  - destruct (require_line_b l) eqn:R; [|reflexivity].
    apply (require_line_b_true l N) in R.
    destruct (match_here_complete require_pattern prev l rest [])
      with (adv := false) as (n & gs & M').
    + apply require_denotes. now repeat split.
    + discriminate.
    + rewrite M in M'. discriminate.
Qed.

Lemma match_not_bol (adv : bool) (prev : option ascii) (s : str) :
  at_bol prev = false -> match_here require_pattern adv prev s = None.
Proof.
  intros B. unfold require_pattern. cbn [match_here]. now rewrite B.
Qed.

Lemma match_at_newline (adv : bool) (prev : option ascii) (s : str) :
  match_here require_pattern adv prev (NL :: s) = None.
Proof.
  unfold require_pattern. cbn [match_here].
  destruct (at_bol prev); reflexivity.
Qed.

Lemma match_at_end (adv : bool) (prev : option ascii) :
  match_here require_pattern adv prev [] = None.
Proof.
  unfold require_pattern. cbn [match_here].
  destruct (at_bol prev); reflexivity.
Qed.

(** ** The scan for the import pattern, line by line *)

Lemma scan_skip (p : pattern) (x rest : str) :
  forall prev,
    scan p (length x) prev (x ++ rest) = scan p 0 (prev_of prev x) rest.
Proof.
  induction x as [|c x IH]; intros prev; [reflexivity|].
  simpl. rewrite IH. now rewrite <- (prev_of_cons prev).
Qed.

Lemma scan_cons_hit (p : pattern) prev c s n gs :
  match_here p false prev (c :: s) = Some (S n, gs) ->
  scan p 0 prev (c :: s) = Hit (S n) gs :: scan p n (Some c) s.
Proof. intros M. simpl. now rewrite M. Qed.

Lemma scan_cons_copy (p : pattern) prev c s :
  match_here p false prev (c :: s) = None ->
  scan p 0 prev (c :: s) = Copy c :: scan p 0 (Some c) s.
Proof. intros M. simpl. now rewrite M. Qed.

Lemma scan_inside_line (l rest : str) :
  forall prev,
    at_bol prev = false -> ~ In NL l ->
    scan require_pattern 0 prev (l ++ rest)
    = map Copy l ++ scan require_pattern 0 (prev_of prev l) rest.
Proof.
  induction l as [|c l IH]; intros prev B N; [reflexivity|].
  simpl app. rewrite scan_cons_copy by now apply match_not_bol.
  simpl map. simpl app. f_equal. rewrite IH.
  - now rewrite <- (prev_of_cons prev).
  - simpl. apply Ascii.eqb_neq. intros ->. apply N. now left.
  - intros I. apply N. now right.
Qed.

Lemma require_line_b_nil : require_line_b [] = false.
Proof. reflexivity. Qed.

Lemma scan_line (l rest : str) (prev : option ascii) :
  ~ In NL l -> at_bol prev = true -> at_eol rest = true ->
  scan require_pattern 0 prev (l ++ rest)
  = line_tokens l ++ scan require_pattern 0 (prev_of prev l) rest.
Proof.
  intros N B E. destruct l as [|c l].
  - unfold line_tokens. rewrite require_line_b_nil. reflexivity.
  - pose proof (match_line (c :: l) rest prev N B E) as M.
    unfold line_tokens. destruct (require_line_b (c :: l)).
    + simpl app in *. simpl length in M. rewrite (scan_cons_hit _ _ _ _ _ _ M).
      simpl length. f_equal.
      rewrite scan_skip. now rewrite <- (prev_of_cons prev).
    + simpl app in *. rewrite (scan_cons_copy _ _ _ _ M).
      simpl map. simpl app. f_equal.
      rewrite scan_inside_line.
      * now rewrite <- (prev_of_cons prev).
      * simpl. apply Ascii.eqb_neq. intros ->. apply N. now left.
      * intros I. apply N. now right.
Qed.

Lemma scan_lines (ls : list str) :
  forall prev,
    at_bol prev = true -> ls <> [] -> Forall (fun l => ~ In NL l) ls ->
    scan require_pattern 0 prev (join_lines ls) = lines_tokens ls.
Proof.
  induction ls as [|l ls IH]; intros prev B Hne F; [now destruct Hne|].
  inversion F as [|? ? N F']; subst. destruct ls as [|l' ls].
  - simpl. rewrite <- (app_nil_r l) at 1.
    rewrite scan_line by (assumption || reflexivity).
    cbn [scan]. rewrite match_at_end. now rewrite app_nil_r.
  - rewrite join_lines_cons.
    rewrite scan_line by (assumption || apply Ascii.eqb_refl).
    cbn [scan]. rewrite match_at_newline.
    change (lines_tokens (l :: l' :: ls))
      with (line_tokens l ++ Copy NL :: lines_tokens (l' :: ls)).
    do 2 f_equal. apply IH; [apply Ascii.eqb_refl|discriminate|assumption].
Qed.

Lemma finditer_lines (content : str) :
  finditer require_pattern content
  = spans 0 (lines_tokens (split_on NL content)).
Proof.
  unfold finditer. rewrite <- (join_split content) at 1.
  rewrite scan_lines; [reflexivity|reflexivity| |apply split_no_newline].
  destruct (split_on_cons NL content) as (l & ls & ->). discriminate.
Qed.

Lemma spans_app (a b : list token) :
  forall pos, spans pos (a ++ b) = spans pos a ++ spans (pos + width a) b.
Proof.
  induction a as [|[c|n gs] a IH]; intros pos; simpl.
  - now rewrite Nat.add_0_r.
  - rewrite IH. do 2 f_equal. lia.
  - rewrite IH. do 3 f_equal. lia.
Qed.

Lemma spans_copy (s : str) (pos : nat) : spans pos (map Copy s) = [].
Proof.
  revert pos. induction s as [|c s IH]; intros pos; simpl; [reflexivity|apply IH].
Qed.

Lemma width_copy (s : str) : width (map Copy s) = length s.
Proof. induction s as [|c s IH]; simpl; [reflexivity|now rewrite IH]. Qed.

Lemma width_line (l : str) : width (line_tokens l) = length l.
Proof.
  unfold line_tokens. destruct (require_line_b l); [simpl; lia|apply width_copy].
Qed.

Lemma spans_line (l : str) (pos : nat) :
  spans pos (line_tokens l)
  = if require_line_b l then [(pos, pos + length l)] else [].
Proof.
  unfold line_tokens. destruct (require_line_b l); [reflexivity|apply spans_copy].
Qed.

Lemma length_join_cons (l l' : str) (ls : list str) :
  length (join_lines (l :: l' :: ls))
  = length l + 1 + length (join_lines (l' :: ls)).
Proof. rewrite join_lines_cons, length_app. simpl. lia. Qed.

(** The last match is the last line of the import shape, and ends with it. *)
Lemma last_span_lines (ls : list str) :
  forall pos d,
    spans pos (lines_tokens ls) <> [] ->
    exists before l after,
      ls = before ++ l :: after
      /\ require_line_b l = true
      /\ Forall (fun x => require_line_b x = false) after
      /\ snd (last (spans pos (lines_tokens ls)) d)
         = pos + length (join_lines (before ++ [l])).
Proof.
  induction ls as [|l ls IH]; intros pos d H; [now destruct H|].
  destruct ls as [|l' ls].
  - simpl lines_tokens in *. rewrite spans_line in *.
    destruct (require_line_b l) eqn:R; [|now destruct H].
    exists [], l, []. repeat split; [assumption|constructor].
  - change (lines_tokens (l :: l' :: ls))
      with (line_tokens l ++ Copy NL :: lines_tokens (l' :: ls)) in *.
    rewrite spans_app, width_line in *. cbn [spans] in *.
    destruct (spans (S (pos + length l)) (lines_tokens (l' :: ls))) eqn:T.
    + rewrite app_nil_r in *. rewrite spans_line in *.
      destruct (require_line_b l) eqn:R; [|now destruct H].
      exists [], l, (l' :: ls). repeat split; [assumption| ].
      clear H IH R.
      assert (G : forall ls pos, spans pos (lines_tokens ls) = [] ->
                  Forall (fun x => require_line_b x = false) ls).
      { clear. induction ls as [|a ls IH]; intros pos H; [constructor|].
        destruct ls as [|b ls].
        - simpl in H. rewrite spans_line in H.
          destruct (require_line_b a) eqn:R; [discriminate|].
          repeat constructor. assumption.
        - change (lines_tokens (a :: b :: ls))
            with (line_tokens a ++ Copy NL :: lines_tokens (b :: ls)) in H.
          rewrite spans_app in H. apply app_eq_nil in H as [H1 H2].
          rewrite spans_line in H1.
          destruct (require_line_b a) eqn:R; [discriminate|].
          constructor; [assumption|]. cbn [spans] in H2. now apply IH in H2. }
      now apply G in T.
    + destruct (IH (S (pos + length l)) d) as (before & x & after & E & R & F & L).
      { rewrite T. discriminate. }
      exists (l :: before), x, after. rewrite E. repeat split; try assumption.
      rewrite <- T.
      assert (Hl : forall (a b : list (nat * nat)), b <> [] ->
                   last (a ++ b) d = last b d).
      { clear. intros a b Hb. induction a as [|y a IHa]; [reflexivity|].
        simpl app. rewrite <- IHa.
        destruct (a ++ b) eqn:Z; [|reflexivity].
        apply app_eq_nil in Z as [_ ->]. now destruct Hb. }
      rewrite Hl by (rewrite T; discriminate).
      rewrite L. simpl app.
      destruct before as [|b0 before].
      * simpl app. rewrite length_join_cons. lia.
      * simpl app. rewrite length_join_cons. lia.
Qed.

Lemma not_require_line (l : str) :
  require_line_b l = false -> ~ is_require_line l.
Proof.
  intros R H. pose proof (is_require_line_no_newline l H) as N.
  apply (require_line_b_true l N) in H. congruence.
Qed.

Lemma logger_statement_no_newline (filepath : str) :
  ~ In NL (logger_statement filepath).
Proof.
  unfold logger_statement, logger_path, repeat_str.
  rewrite !not_in_app. repeat split;
    try (intros I; simpl in I; unfold NL in I; intuition discriminate).
  induction (Z.to_nat (Z.of_nat (count_char "/" filepath) - 1)) as [|n IH];
    simpl; [tauto|].
  intros [I|[I|[I|I]]]; try discriminate. now apply IH.
Qed.


Lemma insert_at (pre tail ins : str) :
  firstn (length pre) (pre ++ tail) ++ ins ++ skipn (length pre) (pre ++ tail)
  = pre ++ ins ++ tail.
Proof.
  rewrite firstn_app, firstn_all, Nat.sub_diag, firstn_O, app_nil_r.
  rewrite skipn_app, skipn_all, Nat.sub_diag, skipn_O. reflexivity.
Qed.

(** Where the import goes: right after the last line of the import shape. *)
Lemma add_logger_import_added (content filepath content' : str) :
  add_logger_import content filepath = (content', true) ->
  exists before l after,
    split_on NL content = before ++ l :: after
    /\ is_require_line l
    /\ Forall (fun x => ~ is_require_line x) after
    /\ content = join_lines (before ++ [l])
                 ++ match after with [] => [] | _ :: _ => NL :: join_lines after end
    /\ content' = join_lines (before ++ [l]) ++ logger_line filepath
                  ++ match after with [] => [] | _ :: _ => NL :: join_lines after end.
Proof.
  unfold add_logger_import.
  destruct (has_logger_reference content); [discriminate|].
  rewrite finditer_lines.
  destruct (spans 0 (lines_tokens (split_on NL content))) as [|sp sps] eqn:S;
    [discriminate|].
  rewrite <- S. intros H. injection H as <-.
  destruct (last_span_lines (split_on NL content) 0 (0, 0))
    as (before & l & after & E & R & F & L).
  { rewrite S. discriminate. }
  pose proof (split_no_newline content) as N. rewrite E in N.
  apply Forall_app in N as [Nb N]. inversion N as [|? ? Nl Na]; subst.
  assert (C : content = join_lines (before ++ [l])
                        ++ match after with [] => [] | _ :: _ => NL :: join_lines after end).
  { rewrite <- join_lines_app, <- E. symmetry. apply join_split. }
  exists before, l, after. repeat split.
  - assumption.
  - now apply require_line_b_true.
  - clear - F. induction F as [|y ys Hy F IH]; constructor;
      [now apply not_require_line|assumption].
  - assumption.
  - rewrite L. simpl Nat.add.
    pose proof (insert_at (join_lines (before ++ [l]))
                  (match after with [] => [] | _ :: _ => NL :: join_lines after end)
                  (logger_line filepath)) as I.
    rewrite C. exact I.
Qed.

(** ** Properties of the import inserter *)

(** The one reference the presence test knows: a text that holds
    [require('../../utils/logger')], in single or in double quotes, comes
    back unchanged and with the signal that no import was added. *)
Theorem logger_reference_kept (content filepath : str) :
  occurs (lit "require('../../utils/logger')") content
  \/ occurs (lit "require(" ++ [DQ] ++ lit "../../utils/logger" ++ [DQ] ++ lit ")")
       content ->
  add_logger_import content filepath = (content, false).
Proof.
  intros H. unfold add_logger_import, has_logger_reference.
  destruct H as [H|H]; apply contains_occurs in H; rewrite H;
    [reflexivity|now rewrite orb_true_r].
Qed.

Lemma logger_reference_kept_witness :
  let content :=
    lit "const logger = require('../../utils/logger');" ++ NL
      :: lit "console.log('a');" ++ NL :: lit "console.warn('b');" in
  (occurs (lit "require('../../utils/logger')") content
   \/ occurs (lit "require(" ++ [DQ] ++ lit "../../utils/logger" ++ [DQ] ++ lit ")")
        content)
  /\ add_logger_import content (lit "src/a/b/c/d.js") = (content, false).
Proof.
  intros content.
  assert (H : occurs (lit "require('../../utils/logger')") content)
    by (exists (lit "const logger = "),
          (lit ";" ++ NL :: lit "console.log('a');" ++ NL
             :: lit "console.warn('b');"); reflexivity).
  split; [now left|].
  apply (logger_reference_kept content (lit "src/a/b/c/d.js")). now left.
Defined.

(** C9. When an import is reported as added, the lines of the returned text
    are the lines of the original with the one line
    [const logger = require('<path>');] put right after the last line of the
    shape [const <name> = require(<expr>);]; the text before the end of that
    line and the text after it are as they were. *)
Theorem import_follows_last_require (content filepath content' : str) :
  add_logger_import content filepath = (content', true) ->
  exists before l after,
    split_on NL content = before ++ l :: after
    /\ is_require_line l
    /\ Forall (fun x => ~ is_require_line x) after
    /\ split_on NL content'
       = before ++ l :: logger_statement filepath :: after
    /\ exists pre post,
        content = pre ++ post
        /\ content' = pre ++ logger_line filepath ++ post
        /\ pre = join_lines (before ++ [l]).
Proof.
  intros H.
  destruct (add_logger_import_added content filepath content' H)
    as (before & l & after & E & R & F & C & C').
  exists before, l, after. repeat split; try assumption.
  - pose proof (split_no_newline content) as N. rewrite E in N.
    apply Forall_app in N as [Nb N].
    assert (Nl : ~ In NL l) by now inversion N.
    assert (Na : Forall (fun x => ~ In NL x) after) by now inversion N.
    rewrite <- (split_join (before ++ l :: logger_statement filepath :: after)).
    + f_equal. rewrite C'.
      rewrite (join_lines_app before l (logger_statement filepath :: after)).
      f_equal. unfold logger_line. simpl app. f_equal.
      destruct after; [now rewrite app_nil_r|reflexivity].
    + now destruct before.
    + apply Forall_app. split; [assumption|].
      constructor; [assumption|].
      constructor; [apply logger_statement_no_newline|assumption].
  - eexists _, _. repeat split; eassumption.
Qed.

Lemma import_follows_last_require_witness :
  let content :=
    lit "const a = require('a');" ++ NL :: lit "const b = require('b');" ++ NL
      :: lit "console.log(b);" in
  let content' :=
    lit "const a = require('a');" ++ NL :: lit "const b = require('b');" ++ NL
      :: lit "const logger = require('../utils/logger');" ++ NL
      :: lit "console.log(b);" in
  add_logger_import content (lit "src/deep/b.js") = (content', true)
  /\ exists before l after,
      split_on NL content = before ++ l :: after
      /\ is_require_line l
      /\ Forall (fun x => ~ is_require_line x) after
      /\ split_on NL content'
         = before ++ l :: logger_statement (lit "src/deep/b.js") :: after
      /\ exists pre post,
          content = pre ++ post
          /\ content' = pre ++ logger_line (lit "src/deep/b.js") ++ post
          /\ pre = join_lines (before ++ [l]).
Proof.
  intros content content'.
  assert (H : add_logger_import content (lit "src/deep/b.js") = (content', true))
    by reflexivity.
  split; [exact H|].
  exact (import_follows_last_require content (lit "src/deep/b.js") content' H).
Defined.

(** ** Properties of the rewriter *)

(** C8, as the claim has it: a call laid out over several lines would pass
    through unchanged.  The white space before [error] may hold the line
    break, and the call is rewritten. *)
Lemma multi_line_call_counterexample :
  let text := lit "console.error('boom'," ++ NL :: lit "  error);" ++ [NL] in
  In NL text
  /\ replace_console_statements text
     = (lit "logger.error('boom', { error: error.message, stack: error.stack });"
          ++ [NL], 1)
  /\ replace_console_statements text <> (text, 0).
Proof.
  split; [vm_compute; tauto|].
  split; [vm_compute; reflexivity|vm_compute; discriminate].
Qed.

(** C8, amended. A text in which no substring has one of the eight call
    shapes comes back unchanged, with a count of zero.  (The shapes take
    line breaks inside the message and in the white space before [error],
    so not every call laid out over several lines is such a text.) *)
Theorem unmatched_text_unchanged (text : str) :
  (forall m, occurs m text -> ~ convertible m) ->
  replace_console_statements text = (text, 0).
Proof.
  intros H. unfold replace_console_statements.
  apply apply_rules_quiet. intros r I. apply subn_quiet. intros a b ->.
  destruct (match_here (fst r) false (prev_of None a) b) eqn:E; [|reflexivity].
  destruct (match_convertible r a b I) as (m & rest & -> & C).
  - rewrite E. discriminate.
  - exfalso. apply (H m); [|assumption]. now exists a, rest.
Qed.

(** A call with another second argument, a computed string, a call with
    line breaks around its argument and a call without its semicolon make
    such a text. *)
Lemma unmatched_text_unchanged_witness :
  let text :=
    lit "console.log('a', b);" ++ NL
      :: lit "console.error('failed: ' + err.message);" ++ NL
      :: lit "console.warn(" ++ NL :: lit "  'multi'" ++ NL :: lit ");" ++ NL
      :: lit "console.log('no semicolon')" ++ [NL] in
  (forall m, occurs m text -> ~ convertible m)
  /\ replace_console_statements text = (text, 0).
Proof.
  intros text.
  assert (H : forall m, occurs m text -> ~ convertible m)
    by (apply search_no_convertible; reflexivity).
  split; [exact H|]. exact (unmatched_text_unchanged text H).
Defined.

(** ** Properties of the locator *)

(** C6. When the count query fails (it raises, it ends with a status other
    than zero, or its output is not a number) the count is 0, the file is no
    candidate, and the locator leaves it out. *)
Theorem failed_count_is_zero (run : list str -> outcome) (filepath : str) :
  run (grep_argv filepath) = Raised
  \/ (exists returncode stdout,
        run (grep_argv filepath) = Completed returncode stdout
        /\ returncode <> 0%Z)
  \/ (exists stdout,
        run (grep_argv filepath) = Completed 0 stdout
        /\ int (strip stdout) = None) ->
  count_console_statements run filepath = 0%Z
  /\ is_candidate run filepath = false
  /\ forall files, find_files_with_console run = Some files ->
                   ~ In filepath files.
Proof.
  intros H.
  assert (Z : count_console_statements run filepath = 0%Z).
  { unfold count_console_statements.
    destruct H as [->|[(rc & out & -> & Hrc)|(out & -> & Hint)]].
    - reflexivity.
    - apply Z.eqb_neq in Hrc. now rewrite Hrc.
    - simpl. now rewrite Hint. }
  assert (C : is_candidate run filepath = false).
  { unfold is_candidate. destruct filepath; [reflexivity|]. now rewrite Z. }
  repeat split; try assumption.
  intros files E I. unfold find_files_with_console in E.
  destruct (run find_argv) as [|rc out]; [discriminate|].
  destruct (rc =? 0)%Z; [|discriminate].
  injection E as <-. apply filter_In in I as [_ I]. congruence.
Qed.

Lemma failed_count_is_zero_witness :
  let run := fun argv : list str =>
               match argv with
               | [_; _; _; _] => Completed 2 []
               | _ => Completed 0 (lit "src/gone.js" ++ [NL])
               end in
  (run (grep_argv (lit "src/gone.js")) = Raised
   \/ (exists returncode stdout,
         run (grep_argv (lit "src/gone.js")) = Completed returncode stdout
         /\ returncode <> 0%Z)
   \/ (exists stdout,
         run (grep_argv (lit "src/gone.js")) = Completed 0 stdout
         /\ int (strip stdout) = None))
  /\ count_console_statements run (lit "src/gone.js") = 0%Z
  /\ is_candidate run (lit "src/gone.js") = false
  /\ forall files, find_files_with_console run = Some files ->
                   ~ In (lit "src/gone.js") files.
Proof.
  intros run.
  assert (H : run (grep_argv (lit "src/gone.js")) = Raised
              \/ (exists returncode stdout,
                    run (grep_argv (lit "src/gone.js")) = Completed returncode stdout
                    /\ returncode <> 0%Z)
              \/ (exists stdout,
                    run (grep_argv (lit "src/gone.js")) = Completed 0 stdout
                    /\ int (strip stdout) = None)).
  { right; left. exists 2%Z, []. split; [reflexivity|discriminate]. }
  split; [exact H|]. exact (failed_count_is_zero run (lit "src/gone.js") H).
Defined.

(** C10. When the enumeration prints nothing, the locator returns the empty
    list: the one empty string that splitting gives is dropped before any
    count is asked for. *)
Theorem empty_enumeration_no_files (run : list str -> outcome) :
  run find_argv = Completed 0 [] ->
  split_on NL (strip []) = [[]]
  /\ is_candidate run [] = false
  /\ find_files_with_console run = Some [].
Proof.
  intros H. repeat split. unfold find_files_with_console. now rewrite H.
Qed.

Lemma empty_enumeration_no_files_witness :
  let run := fun argv : list str =>
               match argv with
               | [_; _; _; _] => Completed 0 (lit "7" ++ [NL])
               | _ => Completed 0 []
               end in
  run find_argv = Completed 0 []
  /\ split_on NL (strip []) = [[]]
  /\ is_candidate run [] = false
  /\ find_files_with_console run = Some [].
Proof.
  intros run. split; [reflexivity|].
  apply (empty_enumeration_no_files run). reflexivity.
Defined.

(** ** Properties of the reporter *)

Lemma sumZ_app (a b : list Z) : sumZ (a ++ b) = (sumZ a + sumZ b)%Z.
Proof.
  unfold sumZ. induction a as [|x a IH]; simpl; [reflexivity|].
  rewrite IH. lia.
Qed.

Section MainProperties.

Variable World : Type.
Variable run : World -> list str -> outcome.
Variable read_text : World -> str -> option str.
Variable write_text : World -> str -> str -> option World.

Lemma process_file_processed (w : World) (filepath : str) w1 l rest w' logs :
  process_file run read_text write_text w filepath = Some (w1, l) ->
  processed run read_text write_text w1 rest w' logs ->
  processed run read_text write_text w (filepath :: rest) w' (l :: logs).
Proof.
  unfold process_file. intros H P.
  destruct (read_text w filepath) as [content|] eqn:R; [|discriminate].
  destruct (add_logger_import content filepath) as [content1 added] eqn:A.
  destruct (replace_console_statements content1) as [content2 count] eqn:C.
  destruct (write_text w filepath content2) as [w2|] eqn:W; [|discriminate].
  injection H as <- <-.
  now apply (Processed_file World run read_text write_text w filepath
               content content1 added content2 count w2).
Qed.

Lemma process_files_processed (files : list str) :
  forall w total added logs0 w' total' added' logs',
    process_files run read_text write_text w files total added logs0
    = Some (w', total', added', logs') ->
    exists logs,
      processed run read_text write_text w files w' logs
      /\ logs' = rev logs0 ++ logs
      /\ total' = (total + sumZ (map delta logs))%Z
      /\ added' = (added + imports_added logs)%Z.
Proof.
  induction files as [|filepath rest IH];
    intros w total added logs0 w' total' added' logs' H; simpl in H.
  - injection H as <- <- <- <-. exists []. repeat split.
    + constructor.
    + now rewrite app_nil_r.
    + simpl. lia.
    + unfold imports_added. simpl. lia.
  - destruct (process_file run read_text write_text w filepath)
      as [[w1 l]|] eqn:P; [|discriminate].
    apply IH in H as (logs & Pr & -> & -> & ->).
    exists (l :: logs). repeat split.
    + now apply (process_file_processed w filepath w1).
    + simpl. now rewrite <- app_assoc.
    + simpl. unfold delta at 2. lia.
    + unfold imports_added. simpl.
      destruct (logger_added l); simpl length; lia.
Qed.

(** C7. The total that [main] reports is the sum, over the files it
    processed, of the external count before the rewrite minus the
    external count after the write; the substitution counts of the
    rewriter do not enter it. *)
Theorem total_is_count_delta (w w' : World) (n : nat) (added total : Z)
  (remaining : option (nat * Z)) (logs : list file_log) :
  main run read_text write_text w
  = Some (w', Complete n added total remaining logs) ->
  exists files,
    find_files_with_console (run w) = Some files
    /\ processed run read_text write_text w files w' logs
    /\ n = length files
    /\ total = sumZ (map delta logs)
    /\ added = imports_added logs.
Proof.
  unfold main. intros H.
  destruct (find_files_with_console (run w)) as [files|]; [|discriminate].
  destruct files as [|f files]; [discriminate|].
  destruct (process_files run read_text write_text w (f :: files) 0 0 [])
    as [[[[w1 total1] added1] logs1]|] eqn:P; [|discriminate].
  destruct (find_files_with_console (run w1)); [|discriminate].
  injection H as <- <- <- <- _ <-.
  apply process_files_processed in P as (logs & Pr & -> & -> & ->).
  exists (f :: files). repeat split; try assumption; simpl; lia.
Qed.

End MainProperties.

Lemma total_is_count_delta_witness :
  main run_tree read_tree write_tree app_tree
  = Some ([(lit "src/app.js", app_js_once)],
          Complete 1 1 1 (Some (1, 1%Z)) [app_log])
  /\ (exists files,
         find_files_with_console (run_tree app_tree) = Some files
         /\ processed run_tree read_tree write_tree app_tree files
              [(lit "src/app.js", app_js_once)] [app_log]
         /\ 1 = length files
         /\ 1%Z = sumZ (map delta [app_log])
         /\ 1%Z = imports_added [app_log])
  /\ map replacements [app_log] = [2].
Proof.
  assert (H : main run_tree read_tree write_tree app_tree
              = Some ([(lit "src/app.js", app_js_once)],
                      Complete 1 1 1 (Some (1, 1%Z)) [app_log]))
    by (vm_compute; reflexivity).
  split; [exact H|]. split; [|reflexivity].
  exact (total_is_count_delta tree run_tree read_tree write_tree app_tree
           [(lit "src/app.js", app_js_once)] 1 1 1 (Some (1, 1%Z)) [app_log] H).
Defined.

(** ** Running the script *)

(** C1. At [src/app.js] the rewrite is not idempotent: the inserted line
    reads [require('utils/logger')], which the presence test does not
    look for, so a second run inserts the line again. *)
Theorem second_run_inserts_again :
  rewrite_file app_js (lit "src/app.js") = app_js_once
  /\ rewrite_file app_js_once (lit "src/app.js") = app_js_twice
  /\ app_js_once <> app_js_twice
  /\ main_tree app_tree
     = Some ([(lit "src/app.js", app_js_once)],
             Complete 1 1 1 (Some (1, 1%Z)) [app_log])
  /\ exists logs,
      main_tree [(lit "src/app.js", app_js_once)]
      = Some ([(lit "src/app.js", app_js_twice)],
              Complete 1 1 0 (Some (1, 1%Z)) logs).
Proof.
  split; [vm_compute; reflexivity|].
  split; [vm_compute; reflexivity|].
  split; [vm_compute; discriminate|].
  split; [vm_compute; reflexivity|].
  eexists. vm_compute. reflexivity.
Qed.

(** C2, as the claim has it: file A would import ['../utils/logger'].
    The run does not do that. *)
Lemma two_file_run_counterexample :
  ~ (exists t' logs a b,
        main_tree two_file_tree = Some (t', Complete 2 1 2 None logs)
        /\ lookup (lit "src/a.js") t' = Some a
        /\ occurs (lit "require('../utils/logger')") a
        /\ lookup (lit "src/deep/b.js") t' = Some b
        /\ ~ occurs (lit "require(") b
        /\ occurs (lit "logger.info('ok');") b).
Proof.
  intros (t' & logs & a & b & M & La & Oa & _).
  vm_compute in M. injection M as <- _.
  vm_compute in La. injection La as <-.
  apply contains_occurs in Oa. vm_compute in Oa. discriminate.
Qed.

(** C2, amended. On the two-file tree the run reports 2 files processed,
    1 logger import added (file A only), 2 replacements and nothing
    remaining; file A receives an import of ['utils/logger'] (its path has
    one separator, so no [../] is put before it), file B receives no import
    and holds [logger.info('ok');]. *)
Theorem two_file_run :
  exists t' logs a b,
    main_tree two_file_tree = Some (t', Complete 2 1 2 None logs)
    /\ map logger_added logs = [true; false]
    /\ lookup (lit "src/a.js") t' = Some a
    /\ a = lit "const x = require('x');" ++ NL
             :: lit "const logger = require('utils/logger');" ++ NL
             :: lit "logger.warn('careful');" ++ [NL]
    /\ lookup (lit "src/deep/b.js") t' = Some b
    /\ ~ occurs (lit "require(") b
    /\ b = lit "logger.info('ok');" ++ [NL].
Proof.
  eexists _, _, _, _. split; [vm_compute; reflexivity|].
  split; [vm_compute; reflexivity|]. split; [vm_compute; reflexivity|].
  split; [vm_compute; reflexivity|]. split; [vm_compute; reflexivity|].
  split; [|vm_compute; reflexivity].
  intros O. apply contains_occurs in O. vm_compute in O. discriminate.
Qed.

(** ** What a scan keeps *)

Lemma render_cons (t : template) (x : token) (ts : list token) :
  render t (x :: ts)
  = match x with Copy c => [c] | Hit _ gs => expand t gs end ++ render t ts.
Proof. reflexivity. Qed.

Lemma render_app (t : template) (a b : list token) :
  render t (a ++ b) = render t a ++ render t b.
Proof.
  unfold render. now rewrite map_app, concat_app.
Qed.

(** Where no match starts inside [v], the scan copies [v]. *)
Lemma scan_copy_prefix (p : pattern) (b : str) (v : str) :
  forall prev,
    (forall v1 v2, v = v1 ++ v2 -> v2 <> [] ->
                   forall prev', match_here p false prev' (v2 ++ b) = None) ->
    scan p 0 prev (v ++ b) = map Copy v ++ scan p 0 (prev_of prev v) b.
Proof.
  induction v as [|c v IH]; intros prev H; [reflexivity|].
  simpl app. rewrite scan_cons_copy.
  - simpl map. simpl app. f_equal. rewrite IH.
    + now rewrite <- (prev_of_cons prev).
    + intros v1 v2 E N prev'. apply (H (c :: v1) v2); [now rewrite E|assumption].
  - apply (H [] (c :: v) eq_refl). discriminate.
Qed.

(** A scan keeps a word [w] in its output when the scan, arriving at the
    text [v], writes [w], and every match that starts earlier either ends
    before [v] or writes [w] itself. *)
Lemma scan_preserve (p : pattern) (t : template) (v w b : str) :
  (forall u prev n gs,
      u <> [] -> match_here p false prev (u ++ v ++ b) = Some (n, gs) ->
      1 <= n /\ (n <= length u \/ occurs w (expand t gs))) ->
  (forall prev, exists tail, render t (scan p 0 prev (v ++ b)) = w ++ tail) ->
  forall a skip prev,
    skip <= length a ->
    occurs w (render t (scan p skip prev (a ++ v ++ b))).
Proof.
  intros G1 G2. induction a as [|c a IH]; intros skip prev Hs.
  - simpl in Hs. replace skip with 0 by lia. simpl app.
    destruct (G2 prev) as (tail & ->). now exists [], tail.
  - destruct skip as [|k].
    + simpl app.
      destruct (match_here p false prev (c :: a ++ v ++ b)) as [[n gs]|] eqn:M.
      * destruct (G1 (c :: a) prev n gs) as (Hn & [Hle|(x & y & E)]);
          [discriminate|exact M| |].
        -- destruct n as [|n]; [lia|]. rewrite (scan_cons_hit _ _ _ _ _ _ M).
           rewrite render_cons.
           destruct (IH n (Some c)) as (x & y & ->); [simpl in Hle; lia|].
           exists (expand t gs ++ x), y. now rewrite <- app_assoc.
        -- destruct n as [|n]; [lia|]. rewrite (scan_cons_hit _ _ _ _ _ _ M).
           rewrite render_cons, E.
           exists x, (y ++ render t (scan p n (Some c) (a ++ v ++ b))).
           now rewrite <- !app_assoc.
      * rewrite (scan_cons_copy _ _ _ _ M), render_cons.
        destruct (IH 0 (Some c)) as (x & y & ->); [lia|].
        now exists (c :: x), y.
    + simpl app. change (scan p (S k) prev (c :: a ++ v ++ b))
        with (scan p k (Some c) (a ++ v ++ b)).
      apply IH. simpl in Hs. lia.
Qed.

(** ** Lining texts up *)

Lemma agree_app (a b x y : str) : a ++ x = b ++ y -> agree a b = true.
Proof.
  revert b. induction a as [|c a IH]; intros b E; [reflexivity|].
  destruct b as [|d b]; [reflexivity|].
  injection E as -> E. simpl. rewrite Ascii.eqb_refl. now apply (IH b).
Qed.

Lemma in_tails (s a b : str) : s = a ++ b -> In b (tails s).
Proof.
  revert s. induction a as [|c a IH]; intros s ->.
  - destruct b; now left.
  - simpl. right. now apply IH.
Qed.

Lemma start_conflict (w h t1 t2 z y : str) :
  no_start w h = true ->
  w = t1 ++ t2 -> t2 <> [] -> t2 ++ z = h ++ y -> False.
Proof.
  intros N E Hw E2. unfold no_start in N. rewrite forallb_forall in N.
  specialize (N t2 (in_tails w t1 t2 E)).
  rewrite (agree_app _ _ _ _ E2) in N.
  destruct t2; [now destruct Hw|discriminate].
Qed.

Lemma overlap_conflict (w h u w2 z y : str) :
  no_start (tl w) h = true ->
  w = u ++ w2 -> u <> [] -> w2 <> [] -> w2 ++ z = h ++ y -> False.
Proof.
  intros N -> Hu Hw E. destruct u as [|c u]; [now destruct Hu|].
  now apply (start_conflict (u ++ w2) h u w2 z y).
Qed.

(** The first separator of a text is where it is. *)
Lemma span_unique (q : ascii) (a b x y : str) :
  ~ In q a -> ~ In q b -> a ++ q :: x = b ++ q :: y -> a = b /\ x = y.
Proof.
  revert b. induction a as [|c a IH]; intros b Na Nb E.
  - destruct b as [|d b]; [now injection E|].
    injection E as <- _. exfalso. apply Nb. now left.
  - destruct b as [|d b].
    + injection E as -> _. exfalso. apply Na. now left.
    + injection E as -> E. destruct (IH b) as [-> ->]; try assumption.
      * intros I. apply Na. now right.
      * intros I. apply Nb. now right.
      * now split.
Qed.

(** A word without the separator, before the first separator. *)
Lemma prefix_before_sep (q : ascii) (w x l z : str) :
  ~ In q w -> w ++ x = l ++ q :: z -> exists l2, l = w ++ l2.
Proof.
  revert l. induction w as [|c w IH]; intros l N E; [now exists l|].
  destruct l as [|d l].
  - injection E as -> _. exfalso. apply N. now left.
  - injection E as -> E. destruct (IH l) as (l2 & ->); [|assumption|].
    + intros I. apply N. now right.
    + now exists l2.
Qed.

Ltac norm_app := repeat (simpl; rewrite <- app_assoc); simpl.

Ltac shape_of name q msg tail rest name' tail' Hm :=
  exists name, q, msg, tail, rest;
  split; [unfold console_name; auto|];
  split; [auto|];
  split; [exact Hm|];
  split; [first [now left|right; eexists; split; [eassumption|reflexivity]]|];
  split; [unfold error_object_call, message_call; norm_app; reflexivity|];
  split; [f_equal; unfold error_object_call, message_call; norm_app; reflexivity|];
  exists name', tail'; reflexivity.

(** Every match of a rule is a call [name(q msg q tail], and is rewritten
    to a text that keeps [q msg q]. *)
Lemma rule_match_shape (r : rule) adv prev s n gs :
  In r rules ->
  match_here (fst r) adv prev s = Some (n, gs) ->
  exists name q msg tail rest,
    console_name name /\ (q = SQ \/ q = DQ) /\ message_of q msg
    /\ tail_ok tail
    /\ s = (lit name ++ lit "(" ++ [q]) ++ msg ++ q :: tail ++ rest
    /\ n = length ((lit name ++ lit "(" ++ [q]) ++ msg ++ q :: tail)
    /\ exists name' tail',
        expand (snd r) gs = lit name' ++ q :: msg ++ q :: tail'.
Proof.
  intros I M. apply match_here_sound in M as (m & rest & -> & <- & D & _).
  unfold rules in I. simpl in I.
  destruct I as [<-|[<-|[<-|[<-|[<-|[<-|[<-|[<-|[]]]]]]]]];
    first [ apply error_object_denotes in D as (msg & ws & Hm & Hws & -> & ->)
          | apply message_denotes in D as (msg & Hm & -> & ->) ].
  - shape_of "console.error"%string SQ msg (lit "," ++ ws ++ lit "error);") rest
      "logger.error("%string
      (lit ", { error: error.message, stack: error.stack });") Hm.
  - shape_of "console.error"%string DQ msg (lit "," ++ ws ++ lit "error);") rest
      "logger.error("%string
      (lit ", { error: error.message, stack: error.stack });") Hm.
  - shape_of "console.error"%string SQ msg (lit ");") rest
      "logger.error("%string (lit ");") Hm.
  - shape_of "console.error"%string DQ msg (lit ");") rest
      "logger.error("%string (lit ");") Hm.
  - shape_of "console.log"%string SQ msg (lit ");") rest
      "logger.info("%string (lit ");") Hm.
  - shape_of "console.log"%string DQ msg (lit ");") rest
      "logger.info("%string (lit ");") Hm.
  - shape_of "console.warn"%string SQ msg (lit ");") rest
      "logger.warn("%string (lit ");") Hm.
  - shape_of "console.warn"%string DQ msg (lit ");") rest
      "logger.warn("%string (lit ");") Hm.
Qed.

Lemma space_not_in (c : ascii) (ws : str) :
  isspace c = false -> forallb isspace ws = true -> ~ In c ws.
Proof.
  intros Hc Hws I. rewrite forallb_forall in Hws.
  rewrite (Hws c I) in Hc. discriminate.
Qed.

Lemma tail_ok_facts (tail : str) :
  tail_ok tail ->
  ~ In SQ tail /\ In ";"%char tail /\ ~ In "c"%char tail /\ ~ In "l"%char tail.
Proof.
  intros [->|(ws & Hws & ->)].
  - repeat split; simpl; unfold SQ; intuition discriminate.
  - split; [|split; [|split]].
    + rewrite !not_in_app.
      repeat split; try (simpl; unfold SQ; intuition discriminate).
      now apply space_not_in.
    + rewrite !in_app_iff. right. right. simpl. auto 10.
    + rewrite !not_in_app.
      repeat split; try (simpl; intuition discriminate).
      now apply space_not_in.
    + rewrite !not_in_app.
      repeat split; try (simpl; intuition discriminate).
      now apply space_not_in.
Qed.

Lemma console_start (name : string) (y : str) :
  console_name name -> exists z, lit name ++ y = lit "console." ++ z.
Proof.
  intros [->|[->| ->]]; eexists; reflexivity.
Qed.

(** ** One call, [console.error('X', error);], in any text *)

Section ErrorCall.

Variable X : str.
Hypothesis X_nonempty : X <> [].
Hypothesis X_no_sq : ~ In SQ X.
Hypothesis X_no_dq : ~ In DQ X.
Hypothesis X_no_semicolon : ~ In ";"%char X.
Hypothesis X_no_console : ~ occurs (lit "console.") X.

(** A match that starts before the text [head 'X' tl] and reaches into it
    holds the whole of it inside a double-quoted message. *)
Lemma align (head tl : str) name q msg tail rest u b :
  head = lit "console.error(" \/ head = lit "logger.error(" ->
  ~ In DQ tl ->
  console_name name -> q = SQ \/ q = DQ -> message_of q msg -> tail_ok tail ->
  u <> [] ->
  u ++ (head ++ SQ :: X ++ SQ :: tl) ++ b
  = (lit name ++ lit "(" ++ [q]) ++ msg ++ q :: tail ++ rest ->
  length u < length ((lit name ++ lit "(" ++ [q]) ++ msg ++ q :: tail) ->
  q = DQ /\ exists m1 m2, msg = m1 ++ (head ++ SQ :: X ++ SQ :: tl) ++ m2.
Proof.
  intros Hh Htl Hn Hq [Hmne Hmq] Ht Hu E L.
  destruct (tail_ok_facts tail Ht) as (Tsq & Tsc & Tc & Tl).
  set (V := head ++ SQ :: X ++ SQ :: tl) in *.
  set (w := lit name ++ lit "(" ++ [q]) in *.
  assert (Vhd : exists c0 y, V ++ b = c0 :: y /\ (c0 = "c"%char \/ c0 = "l"%char)).
  { unfold V. destruct Hh as [->| ->]; eexists _, _; split;
      try reflexivity; auto. }
  assert (Vsq : V ++ b = (head ++ [SQ]) ++ X ++ SQ :: tl ++ b).
  { unfold V. norm_app. reflexivity. }
  assert (Hsq : ~ In SQ head).
  { destruct Hh as [->| ->]; simpl; unfold SQ; intuition discriminate. }
  assert (Vdq : ~ In DQ V).
  { unfold V. rewrite not_in_app. split.
    - destruct Hh as [->| ->]; simpl; unfold DQ; intuition discriminate.
    - intros [I|I]; [discriminate|]. apply in_app_iff in I as [I|[I|I]];
        [now apply X_no_dq|discriminate|now apply Htl]. }
  assert (K : forall u', u = w ++ u' ->
                         u' ++ V ++ b = msg ++ q :: tail ++ rest ->
                         q = DQ /\ exists m1 m2, msg = m1 ++ V ++ m2).
  { intros u' -> E'. rewrite !length_app in L.
    apply app_eq_app in E' as (l & [[E1 E2]|[E1 E2]]).
    - (* the text starts at or after the closing quote *)
      exfalso. subst u'. rewrite length_app in L.
      destruct Vhd as (c0 & y & Ey & Hc0). rewrite Ey in E2.
      destruct l as [|q' l'].
      + injection E2 as -> _.
        destruct Hq as [Hq|Hq], Hc0 as [Hc|Hc]; rewrite Hq in Hc; discriminate.
      + injection E2 as <- E2. simpl in L.
        apply app_eq_app in E2 as (l2 & [[E3 E4]|[E3 E4]]).
        * destruct l2 as [|c1 l2].
          -- rewrite app_nil_r in E3. subst l'. lia.
          -- injection E4 as <- _. subst tail.
             destruct Hc0 as [->| ->]; [apply Tc|apply Tl];
               apply in_app_iff; right; now left.
        * subst l'. rewrite length_app in L. lia.
    - (* the text starts inside the message *)
      subst msg. rewrite not_in_app in Hmq. destruct Hmq as [_ Hl].
      destruct Hq as [->| ->].
      + exfalso. rewrite Vsq, <- app_assoc in E2. simpl in E2.
        apply span_unique in E2 as [_ E2]; try assumption.
        symmetry in E2.
        apply prefix_before_sep in E2 as (l2 & ->); [|assumption].
        apply X_no_semicolon. apply in_app_iff. now left.
      + split; [reflexivity|].
        apply prefix_before_sep in E2 as (l2 & ->); [|assumption].
        now exists u', l2. }
  apply app_eq_app in E as (l & [[E1 E2]|[E1 E2]]).
  - apply (K l); [assumption|now symmetry].
  - destruct l as [|a l].
    + rewrite app_nil_r in E1. apply (K []); [now rewrite app_nil_r|].
      simpl. exact E2.
    + exfalso. rewrite Vsq, <- app_assoc in E2. symmetry in E2.
      apply (overlap_conflict w (head ++ [SQ]) u (a :: l)
               (msg ++ q :: tail ++ rest) (X ++ SQ :: tl ++ b));
        try assumption; try discriminate.
      * unfold w.
        destruct Hn as [->|[->| ->]], Hq as [->| ->], Hh as [->| ->];
          vm_compute; reflexivity.
      * rewrite <- app_assoc. exact E2.
Qed.

(** No call starts inside [logger.error('X', { ... });]. *)
Lemma no_console_inside (t1 t2 b z : str) :
  error_object_log SQ X = t1 ++ t2 -> t2 <> [] ->
  t2 ++ b = lit "console." ++ z -> False.
Proof.
  intros E N E2.
  assert (Kq : ~ In SQ (lit "console."))
    by (simpl; unfold SQ; intuition discriminate).
  set (A := lit "logger.error(" ++ [SQ]).
  set (Tl := lit ", { error: error.message, stack: error.stack });").
  set (B := SQ :: Tl).
  assert (ET : error_object_log SQ X = A ++ X ++ B)
    by (unfold error_object_log, A, B; norm_app; reflexivity).
  rewrite ET in E.
  apply app_eq_app in E as (l & [[E1 E3]|[E1 E3]]).
  - (* [t2] starts inside [A] *)
    destruct l as [|a l].
    + simpl in E3. subst t2. rewrite <- app_assoc in E2. symmetry in E2.
      apply (prefix_before_sep SQ (lit "console.") z X (Tl ++ b) Kq) in E2
        as (l2 & E2).
      apply X_no_console. exists [], l2. exact E2.
    + subst t2. rewrite <- !app_assoc in E2.
      apply (start_conflict A (lit "console.") t1 (a :: l)
               (X ++ B ++ b) z);
        [vm_compute; reflexivity|assumption|discriminate|exact E2].
  - apply app_eq_app in E3 as (l' & [[E4 E5]|[E4 E5]]).
    + (* [t2] starts inside [X] *)
      subst t2. rewrite <- app_assoc in E2. symmetry in E2.
      apply (prefix_before_sep SQ (lit "console.") z l' (Tl ++ b) Kq) in E2
        as (l2 & ->).
      apply X_no_console. exists l, l2. exact E4.
    + (* [t2] is a suffix of [B] *)
      apply (start_conflict B (lit "console.") l' t2 b z);
        try assumption. vm_compute. reflexivity.
Qed.

Lemma no_match_inside_log (r : rule) (t1 t2 b : str) prev :
  In r rules ->
  error_object_log SQ X = t1 ++ t2 -> t2 <> [] ->
  match_here (fst r) false prev (t2 ++ b) = None.
Proof.
  intros I E N.
  destruct (match_here (fst r) false prev (t2 ++ b)) as [[n gs]|] eqn:M;
    [exfalso|reflexivity].
  apply (rule_match_shape r _ _ _ _ _ I) in M
    as (name & q & msg & tail & rest & Hn & _ & _ & _ & Es & _).
  rewrite <- !app_assoc in Es.
  destruct (console_start name (lit "(" ++ [q] ++ msg ++ q :: tail ++ rest) Hn)
    as (z & Ez).
  rewrite Ez in Es. exact (no_console_inside t1 t2 b z E N Es).
Qed.

Lemma log_tail_no_dq :
  ~ In DQ (lit ", { error: error.message, stack: error.stack });").
Proof. simpl. unfold DQ. intuition discriminate. Qed.

(** A match that starts before [logger.error('X', { ... });] ends before
    it, or is rewritten to a text that still holds it. *)
Lemma overlap_log (r : rule) (u b : str) prev n gs :
  In r rules -> u <> [] ->
  match_here (fst r) false prev (u ++ error_object_log SQ X ++ b)
  = Some (n, gs) ->
  1 <= n
  /\ (n <= length u \/ occurs (error_object_log SQ X) (expand (snd r) gs)).
Proof.
  intros I Hu M.
  apply (rule_match_shape r _ _ _ _ _ I) in M
    as (name & q & msg & tail & rest & Hn & Hq & Hm & Ht & Es & -> & name'
        & tail' & ->).
  split; [rewrite !length_app; simpl; lia|].
  destruct (le_lt_dec
              (length ((lit name ++ lit "(" ++ [q]) ++ msg ++ q :: tail))
              (length u)) as [Hle|Hlt]; [now left|right].
  destruct (align (lit "logger.error(")
              (lit ", { error: error.message, stack: error.stack });")
              name q msg tail rest u b) as (_ & m1 & m2 & ->);
    try assumption; [now right|apply log_tail_no_dq|].
  exists (lit name' ++ q :: m1), (m2 ++ q :: tail').
  unfold error_object_log. norm_app. reflexivity.
Qed.

(** Every rule keeps an occurrence of [logger.error('X', { ... });]. *)
Lemma log_preserved (r : rule) (text : str) :
  In r rules ->
  occurs (error_object_log SQ X) text ->
  occurs (error_object_log SQ X) (fst (subn (fst r) (snd r) text)).
Proof.
  intros I (a & b & ->). unfold subn, fst at 1.
  apply scan_preserve with (v := error_object_log SQ X); [| |lia].
  - intros u prev n gs Hu M. exact (overlap_log r u b prev n gs I Hu M).
  - intros prev. rewrite scan_copy_prefix.
    + rewrite render_app, render_copy. now eexists.
    + intros v1 v2 E N prev'. now apply (no_match_inside_log r v1 v2).
Qed.

(** A match of the first rule that starts before
    [console.error('X', error);] ends before it. *)
Lemma overlap_call (u b : str) prev n gs :
  u <> [] ->
  match_here (fst (error_object_rule SQ)) false prev
    (u ++ error_object_call SQ X (lit " ") ++ b) = Some (n, gs) ->
  1 <= n /\ n <= length u.
Proof.
  intros Hu M.
  apply match_here_sound in M as (m & rest & Es & <- & D & _).
  apply error_object_denotes in D as (msg & ws & Hm & Hws & -> & _).
  assert (Em : error_object_call SQ msg ws
               = (lit "console.error" ++ lit "(" ++ [SQ]) ++ msg
                   ++ SQ :: (lit "," ++ ws ++ lit "error);"))
    by (unfold error_object_call; norm_app; reflexivity).
  rewrite Em in *.
  split; [rewrite !length_app; simpl; lia|].
  destruct (le_lt_dec
              (length ((lit "console.error" ++ lit "(" ++ [SQ]) ++ msg
                         ++ SQ :: (lit "," ++ ws ++ lit "error);")))
              (length u)) as [Hle|Hlt]; [assumption|exfalso].
  destruct (align (lit "console.error(") (lit ", error);")
              "console.error"%string SQ msg (lit "," ++ ws ++ lit "error);")
              rest u b) as (Hq & _); try assumption.
  - now left.
  - simpl. unfold DQ. intuition discriminate.
  - unfold console_name. auto.
  - now left.
  - right. now exists ws.
  - etransitivity; [exact Es|]. norm_app. reflexivity.
  - discriminate.
Qed.

(** At [console.error('X', error);] the first rule matches exactly that
    call, with [X] as its group. *)
Lemma match_at_call (b : str) prev :
  match_here (fst (error_object_rule SQ)) false prev
    (error_object_call SQ X (lit " ") ++ b)
  = Some (length (error_object_call SQ X (lit " ")), [X]).
Proof.
  destruct (match_here_complete (fst (error_object_rule SQ)) prev
              (error_object_call SQ X (lit " ")) b [X])
    with (adv := false) as (n & gs & M).
  - apply error_object_denotes. exists X, (lit " "). now repeat split.
  - discriminate.
  - pose proof M as M'.
    apply match_here_sound in M' as (m & rest & Es & <- & D & _).
    apply error_object_denotes in D as (msg & ws & [_ Hq] & Hws & -> & ->).
    unfold error_object_call in Es.
    repeat (simpl in Es; rewrite <- app_assoc in Es). simpl in Es.
    injection Es as Es.
    apply span_unique in Es as [<- Es]; try assumption.
    injection Es as Es.
    assert (ws = lit " ").
    { destruct ws as [|c [|d ws]].
      - discriminate.
      - injection Es as <- _. reflexivity.
      - injection Es as <- <- _. simpl in Hws. discriminate. }
    subst ws. exact M.
Qed.

(** The first rule turns the call into [logger.error('X', { ... });]. *)
Lemma call_rewritten (text : str) :
  occurs (error_object_call SQ X (lit " ")) text ->
  occurs (error_object_log SQ X)
    (fst (subn (fst (error_object_rule SQ)) (snd (error_object_rule SQ)) text)).
Proof.
  intros (a & b & ->). unfold subn, fst at 1.
  apply scan_preserve with (v := error_object_call SQ X (lit " ")); [| |lia].
  - intros u prev n gs Hu M.
    destruct (overlap_call u b prev n gs Hu M). split; [assumption|now left].
  - intros prev. pose proof (match_at_call b prev) as M.
    unfold error_object_call in *. rewrite length_app in M.
    simpl length in M. simpl app in *.
    rewrite (scan_cons_hit _ _ _ _ _ _ M), render_cons.
    eexists. f_equal. unfold error_object_log, error_object_rule, expand.
    norm_app. rewrite ?app_nil_r. reflexivity.
Qed.

End ErrorCall.

(** ** More about the rewriter *)

Lemma apply_rules_keep (P : str -> Prop) (rs : list rule) :
  (forall r, In r rs -> forall t, P t -> P (fst (subn (fst r) (snd r) t))) ->
  forall t n, P t -> P (fst (fold_left apply_rule rs (t, n))).
Proof.
  induction rs as [|r rs IH]; intros H t n Pt; simpl; [assumption|].
  rewrite apply_rule_eq. apply IH.
  - intros r' I. apply H. now right.
  - apply H; [now left|assumption].
Qed.

(** A call [console.error('X', error);] whose message holds no quote, no
    semicolon and no [console.] is rewritten wherever it stands: the
    result of the pass holds
    [logger.error('X', { error: error.message, stack: error.stack });]. *)
Theorem error_call_logged (X text : str) :
  X <> [] -> ~ In SQ X -> ~ In DQ X -> ~ In ";"%char X ->
  ~ occurs (lit "console.") X ->
  occurs (error_object_call SQ X (lit " ")) text ->
  occurs (error_object_log SQ X) (fst (replace_console_statements text)).
Proof.
  intros Hne Hsq Hdq Hsc Hc O.
  change (replace_console_statements text)
    with (fold_left apply_rule (tl rules)
            (apply_rule (text, 0) (error_object_rule SQ))).
  rewrite apply_rule_eq.
  apply (apply_rules_keep (occurs (error_object_log SQ X))).
  - intros r I t Ot.
    apply (log_preserved X Hne Hsq Hdq Hsc Hc r t); [|assumption].
    now right.
  - now apply (call_rewritten X Hne Hsq Hdq Hsc Hc).
Qed.

Lemma error_call_logged_witness :
  let X := lit "save failed" in
  let text :=
    lit "try { save(); } catch (error) { console.error('save failed', error); }"
      ++ NL :: lit "console.log(" ++ DQ :: lit "done" ++ DQ :: lit ");" in
  (X <> [] /\ ~ In SQ X /\ ~ In DQ X /\ ~ In ";"%char X
   /\ ~ occurs (lit "console.") X
   /\ occurs (error_object_call SQ X (lit " ")) text)
  /\ occurs (error_object_log SQ X) (fst (replace_console_statements text)).
Proof.
  intros X text.
  assert (H1 : X <> []) by discriminate.
  assert (H2 : ~ In SQ X) by (simpl; unfold SQ; intuition discriminate).
  assert (H3 : ~ In DQ X) by (simpl; unfold DQ; intuition discriminate).
  assert (H4 : ~ In ";"%char X) by (simpl; intuition discriminate).
  assert (H5 : ~ occurs (lit "console.") X)
    by (intros O; apply contains_occurs in O; vm_compute in O; discriminate).
  assert (H6 : occurs (error_object_call SQ X (lit " ")) text)
    by (exists (lit "try { save(); } catch (error) { "),
          (lit " }" ++ NL :: lit "console.log(" ++ DQ :: lit "done" ++ DQ
             :: lit ");"); reflexivity).
  split; [repeat split; assumption|].
  exact (error_call_logged X text H1 H2 H3 H4 H5 H6).
Defined.

(** ** More about the run *)

Section MainEdges.

Variable World : Type.
Variable run : World -> list str -> outcome.
Variable read_text : World -> str -> option str.
Variable write_text : World -> str -> str -> option World.



(** The enumeration is not under the swallow-all policy of the count: when
    [find] raises or ends with a status other than zero, the locator raises
    and so does [main], and the world in which [main] ends is the one in
    which it began: nothing has been written. *)
Theorem enumeration_failure_aborts (w : World) :
  run w find_argv = Raised
  \/ (exists returncode stdout,
        run w find_argv = Completed returncode stdout /\ returncode <> 0%Z) ->
  find_files_with_console (run w) = None
  /\ main run read_text write_text w = None
  /\ main_run run read_text write_text w = (w, None).
Proof.
  intros H.
  assert (F : find_files_with_console (run w) = None).
  { unfold find_files_with_console.
    destruct H as [->|(rc & out & -> & Hrc)]; [reflexivity|].
    apply Z.eqb_neq in Hrc. now rewrite Hrc. }
  split; [exact F|]. split.
  - unfold main. now rewrite F.
  - unfold main_run. now rewrite F.
Qed.



(** When no enumerated path has a positive count, [main] stops after the
    locator: nothing is read or written and the world is as it was. *)
Theorem no_candidate_no_write (w : World) (stdout : str) :
  run w find_argv = Completed 0 stdout ->
  (forall f, In f (split_on NL (strip stdout)) -> f <> [] ->
             (count_console_statements (run w) f <= 0)%Z) ->
  main run read_text write_text w = Some (w, NoConsoleStatements).
Proof.
  intros E H. unfold main, find_files_with_console. rewrite E. simpl.
  replace (filter (is_candidate (run w)) (split_on NL (strip stdout)))
    with (@nil str); [reflexivity|].
  symmetry. induction (split_on NL (strip stdout)) as [|f fs IH];
    [reflexivity|].
  simpl. replace (is_candidate (run w) f) with false.
  - apply IH. intros g I. apply H. now right.
  - symmetry. unfold is_candidate. destruct f as [|c f]; [reflexivity|].
    apply Z.ltb_ge. apply H; [now left|discriminate].
Qed.

End MainEdges.

Lemma enumeration_failure_aborts_witness :
  let run := fun (t : tree) (argv : list str) =>
               match argv with
               | [_; _; _; _] => run_tree t argv
               | _ => Completed 1 []          (* [find] fails *)
               end in
  (run two_file_tree find_argv = Raised
   \/ (exists returncode stdout,
         run two_file_tree find_argv = Completed returncode stdout
         /\ returncode <> 0%Z))
  /\ find_files_with_console (run two_file_tree) = None
  /\ main run read_tree write_tree two_file_tree = None
  /\ main_run run read_tree write_tree two_file_tree = (two_file_tree, None).
Proof.
  intros run.
  assert (H : run two_file_tree find_argv = Raised
              \/ (exists returncode stdout,
                    run two_file_tree find_argv = Completed returncode stdout
                    /\ returncode <> 0%Z)).
  { right. exists 1%Z, []. split; [reflexivity|discriminate]. }
  split; [exact H|].
  exact (enumeration_failure_aborts tree run read_tree write_tree
           two_file_tree H).
Defined.


Lemma no_candidate_no_write_witness :
  run_tree quiet_tree find_argv = Completed 0 (lit "src/quiet.js" ++ [NL])
  /\ (forall f, In f (split_on NL (strip (lit "src/quiet.js" ++ [NL]))) ->
                f <> [] ->
                (count_console_statements (run_tree quiet_tree) f <= 0)%Z)
  /\ main run_tree read_tree write_tree quiet_tree
     = Some (quiet_tree, NoConsoleStatements).
Proof.
  assert (E : run_tree quiet_tree find_argv
              = Completed 0 (lit "src/quiet.js" ++ [NL]))
    by (vm_compute; reflexivity).
  assert (H : forall f, In f (split_on NL (strip (lit "src/quiet.js" ++ [NL]))) ->
                        f <> [] ->
                        (count_console_statements (run_tree quiet_tree) f <= 0)%Z).
  { intros f I _. vm_compute in I. destruct I as [<-|[]].
    vm_compute. discriminate. }
  split; [exact E|]. split; [exact H|].
  exact (no_candidate_no_write tree run_tree read_tree write_tree quiet_tree
           (lit "src/quiet.js" ++ [NL]) E H).
Defined.

(** ** More about the import inserter *)

Lemma spans_nil_lines (ls : list str) :
  forall pos, spans pos (lines_tokens ls) = [] ->
              Forall (fun x => require_line_b x = false) ls.
Proof.
  induction ls as [|a ls IH]; intros pos H; [constructor|].
  destruct ls as [|b ls].
  - simpl in H. rewrite spans_line in H.
    destruct (require_line_b a) eqn:R; [discriminate|].
    repeat constructor. assumption.
  - change (lines_tokens (a :: b :: ls))
      with (line_tokens a ++ Copy NL :: lines_tokens (b :: ls)) in H.
    rewrite spans_app in H. apply app_eq_nil in H as [H1 H2].
    rewrite spans_line in H1.
    destruct (require_line_b a) eqn:R; [discriminate|].
    constructor; [assumption|]. cbn [spans] in H2. now apply IH in H2.
Qed.

Lemma add_logger_import_not_added (content filepath content' : str) :
  add_logger_import content filepath = (content', false) -> content' = content.
Proof.
  unfold add_logger_import.
  destruct (has_logger_reference content); [now intros [= <-]|].
  destruct (finditer require_pattern content); [now intros [= <-]|discriminate].
Qed.

Lemma require_line_adds (content filepath l : str) :
  has_logger_reference content = false ->
  In l (split_on NL content) -> is_require_line l ->
  snd (add_logger_import content filepath) = true.
Proof.
  intros Href I R. unfold add_logger_import. rewrite Href.
  rewrite finditer_lines.
  destruct (spans 0 (lines_tokens (split_on NL content))) as [|sp sps] eqn:S;
    [exfalso|reflexivity].
  apply spans_nil_lines in S. rewrite Forall_forall in S.
  specialize (S l I).
  apply (require_line_b_true l (is_require_line_no_newline l R)) in R.
  congruence.
Qed.

Lemma added_no_reference (content filepath content' : str) :
  add_logger_import content filepath = (content', true) ->
  has_logger_reference content = false.
Proof.
  unfold add_logger_import.
  destruct (has_logger_reference content); [discriminate|reflexivity].
Qed.

(** The inserter adds the import exactly when the text holds no
    [require('../../utils/logger')] (in either quote style) and some line of
    it has the shape [const <name> = require(<expr>);]. *)
Theorem import_added_iff (content filepath : str) :
  snd (add_logger_import content filepath) = true <->
  has_logger_reference content = false
  /\ exists l, In l (split_on NL content) /\ is_require_line l.
Proof.
  split.
  - destruct (add_logger_import content filepath) as [content' flag] eqn:A.
    simpl. intros ->. split.
    + exact (added_no_reference content filepath content' A).
    + destruct (add_logger_import_added content filepath content' A)
        as (before & l & after & E & R & _).
      exists l. split; [|assumption].
      rewrite E. apply in_app_iff. right. now left.
  - intros (Href & l & I & R).
    exact (require_line_adds content filepath l Href I R).
Qed.

(** For a file two directories below the root (three separators in its
    path) the inserter is idempotent: run on its own result it adds
    nothing. *)
Theorem import_idempotent_two_deep (content filepath : str) :
  count_char "/" filepath = 3 ->
  add_logger_import (fst (add_logger_import content filepath)) filepath
  = (fst (add_logger_import content filepath), false).
Proof.
  intros D.
  destruct (add_logger_import content filepath) as [content' [|]] eqn:A;
    simpl fst.
  - destruct (add_logger_import_added content filepath content' A)
      as (before & l & after & _ & _ & _ & _ & C').
    assert (O : occurs (lit "require('../../utils/logger')") content').
    { rewrite C'. unfold logger_line, logger_statement, logger_path.
      rewrite D. simpl.
      exists (join_lines (before ++ [l]) ++ NL :: lit "const logger = "),
        (lit ";" ++ match after with
                    | [] => []
                    | _ :: _ => NL :: join_lines after
                    end).
      norm_app. reflexivity. }
    apply contains_occurs in O.
    unfold add_logger_import, has_logger_reference. now rewrite O.
  - pose proof (add_logger_import_not_added content filepath content' A) as E.
    subst content'. exact A.
Qed.

Lemma import_idempotent_two_deep_witness :
  count_char "/" (lit "src/api/v1/users.js") = 3
  /\ add_logger_import
       (fst (add_logger_import a_js (lit "src/api/v1/users.js")))
       (lit "src/api/v1/users.js")
     = (fst (add_logger_import a_js (lit "src/api/v1/users.js")), false).
Proof.
  split; [reflexivity|].
  apply (import_idempotent_two_deep a_js (lit "src/api/v1/users.js")).
  reflexivity.
Defined.

(** *** A second insertion outside depth two *)

Lemma join_lines_snoc (a : list str) (l : str) :
  exists pre, join_lines (a ++ [l]) = pre ++ l.
Proof.
  induction a as [|x a IH]; [now exists []|].
  destruct IH as (pre & E). destruct a as [|y a].
  - exists (x ++ [NL]). simpl. now rewrite <- app_assoc.
  - exists (x ++ NL :: pre). simpl app in *. rewrite join_lines_cons, E.
    now rewrite <- app_assoc.
Qed.

(** What occurs in a line occurs in the text. *)
Lemma line_occurs (r s l : str) :
  In l (split_on NL s) -> occurs r l -> occurs r s.
Proof.
  intros I (x & y & ->). apply in_split in I as (a & b & E).
  rewrite <- (join_split s), E, join_lines_app.
  destruct (join_lines_snoc a (x ++ r ++ y)) as (pre & ->).
  exists (pre ++ x),
    (y ++ match b with [] => [] | _ :: _ => NL :: join_lines b end).
  now rewrite <- !app_assoc.
Qed.

(** A text without a newline occurs inside one line. *)
Lemma occurs_in_line (r : str) (ls : list str) :
  r <> [] -> ~ In NL r -> ls <> [] ->
  occurs r (join_lines ls) -> exists l, In l ls /\ occurs r l.
Proof.
  intros Hr Hn. induction ls as [|l ls IH]; intros Hne O; [now destruct Hne|].
  destruct ls as [|l' ls].
  - exists l. split; [now left|exact O].
  - rewrite join_lines_cons in O. destruct O as (a & b & E).
    symmetry in E. apply app_eq_app in E as (x & [[E1 E2]|[E1 E2]]).
    + (* [r] starts after the first line *)
      destruct x as [|c x].
      * simpl in E2. destruct r as [|c r]; [now destruct Hr|].
        injection E2 as <- _. exfalso. apply Hn. now left.
      * injection E2 as <- E2. destruct IH as (l0 & I & O0); [discriminate| |].
        -- now exists x, b.
        -- exists l0. split; [now right|assumption].
    + (* [r] starts in the first line *)
      apply (prefix_before_sep NL r b x (join_lines (l' :: ls)) Hn) in E2
        as (x2 & ->).
      exists l. split; [now left|]. now exists a, x2.
Qed.

Lemma count_char_app (c : ascii) (a b : str) :
  count_char c (a ++ b) = count_char c a + count_char c b.
Proof.
  induction a as [|x a IH]; simpl; [reflexivity|]. rewrite IH. lia.
Qed.

Lemma count_char_zero (c : ascii) (s : str) :
  ~ In c s -> count_char c s = 0.
Proof.
  induction s as [|x s IH]; intros N; simpl; [reflexivity|].
  destruct (Ascii.eqb x c) eqn:E.
  - apply Ascii.eqb_eq in E. subst x. exfalso. apply N. now left.
  - apply IH. intros I. apply N. now right.
Qed.

Lemma logger_path_plain (filepath : str) :
  ~ In SQ (logger_path filepath) /\ ~ In DQ (logger_path filepath).
Proof.
  unfold logger_path, repeat_str.
  induction (Z.to_nat (Z.of_nat (count_char "/" filepath) - 1)) as [|n [IH1 IH2]].
  - split; simpl; [unfold SQ|unfold DQ]; intuition discriminate.
  - split; simpl; intros [I|[I|[I|I]]]; try discriminate;
      [now apply IH1|now apply IH2].
Qed.

Lemma logger_path_length (filepath : str) :
  length (logger_path filepath)
  = 3 * Z.to_nat (Z.of_nat (count_char "/" filepath) - 1) + 12.
Proof.
  unfold logger_path, repeat_str. rewrite length_app.
  induction (Z.to_nat (Z.of_nat (count_char "/" filepath) - 1)) as [|n IH];
    simpl in *; lia.
Qed.

(** Outside depth two the inserted line is not what the presence test
    looks for. *)
Lemma statement_no_reference (filepath : str) :
  count_char "/" filepath <> 3 ->
  has_logger_reference (logger_statement filepath) = false.
Proof.
  intros D. destruct (logger_path_plain filepath) as [Psq Pdq].
  unfold has_logger_reference. apply orb_false_iff. split.
  - destruct (contains (lit "require('../../utils/logger')")
                (logger_statement filepath)) eqn:C; [exfalso|reflexivity].
    apply contains_occurs in C as (a & b & E).
    set (A1 := lit "const logger = require(").
    set (Q := lit "../../utils/logger").
    assert (E' : (a ++ lit "require(") ++ SQ :: Q ++ SQ :: lit ")" ++ b
                 = A1 ++ SQ :: logger_path filepath ++ SQ :: lit ");").
    { transitivity (logger_statement filepath).
      - rewrite E. unfold Q. norm_app. reflexivity.
      - unfold logger_statement, A1. norm_app. reflexivity. }
    assert (Qsq : ~ In SQ Q) by (simpl; unfold SQ; intuition discriminate).
    assert (Asq : ~ In SQ A1) by (simpl; unfold SQ; intuition discriminate).
    apply app_eq_app in E' as (x & [[E1 E2]|[E1 E2]]).
    + destruct x as [|c x].
      * simpl in E2. injection E2 as E2.
        apply (span_unique SQ (logger_path filepath) Q (lit ");")
                 (lit ")" ++ b) Psq Qsq) in E2 as [E2 _].
        pose proof (logger_path_length filepath) as L.
        rewrite E2 in L. simpl in L. apply D. lia.
      * injection E2 as <- E2.
        assert (Hl : count_char SQ (logger_path filepath ++ SQ :: lit ");") = 1)
          by (rewrite count_char_app, (count_char_zero SQ _ Psq); reflexivity).
        assert (Hr : 2 <= count_char SQ
                            (x ++ [SQ] ++ Q ++ [SQ] ++ lit ")" ++ b)).
        { rewrite !count_char_app.
          change (count_char SQ [SQ]) with 1. lia. }
        pose proof (f_equal (count_char SQ) E2) as E3.
        change (count_char SQ (logger_path filepath ++ SQ :: lit ");")
                = count_char SQ (x ++ [SQ] ++ Q ++ [SQ] ++ lit ")" ++ b))
          in E3.
        lia.
    + destruct x as [|c x].
      * simpl in E2. injection E2 as E2.
        apply (span_unique SQ Q (logger_path filepath) (lit ")" ++ b)
                 (lit ");") Qsq Psq) in E2 as [E2 _].
        pose proof (logger_path_length filepath) as L.
        rewrite <- E2 in L. simpl in L. apply D. lia.
      * injection E2 as <- E2. apply Asq. rewrite E1.
        apply in_app_iff. right. now left.
  - destruct (contains (lit "require(" ++ [DQ] ++ lit "../../utils/logger"
                          ++ [DQ] ++ lit ")")
                (logger_statement filepath)) eqn:C; [exfalso|reflexivity].
    apply contains_occurs in C as (a & b & E).
    assert (I : In DQ (logger_statement filepath)).
    { rewrite E. apply in_app_iff. right. apply in_app_iff. left.
      simpl. auto 10. }
    unfold logger_statement in I.
    apply in_app_iff in I as [I|I];
      [simpl in I; unfold DQ in I; intuition discriminate|].
    apply in_app_iff in I as [I|I]; [now apply Pdq|].
    simpl in I. unfold DQ in I. intuition discriminate.
Qed.

Lemma statement_is_require_line (filepath : str) :
  is_require_line (logger_statement filepath).
Proof.
  exists (lit "logger"), (SQ :: logger_path filepath ++ [SQ]).
  split; [discriminate|]. split; [discriminate|].
  split; [apply logger_statement_no_newline|].
  unfold logger_statement. norm_app. reflexivity.
Qed.

(** The lines of the text after an insertion. *)
Lemma added_lines (content filepath content' : str) :
  add_logger_import content filepath = (content', true) ->
  exists before l after,
    split_on NL content = before ++ l :: after
    /\ split_on NL content'
       = before ++ l :: logger_statement filepath :: after.
Proof.
  intros H.
  destruct (add_logger_import_added content filepath content' H)
    as (before & l & after & E & R & F & C & C').
  exists before, l, after. split; [assumption|].
  pose proof (split_no_newline content) as N. rewrite E in N.
  apply Forall_app in N as [Nb N].
  assert (Nl : ~ In NL l) by now inversion N.
  assert (Na : Forall (fun x => ~ In NL x) after) by now inversion N.
  rewrite <- (split_join (before ++ l :: logger_statement filepath :: after)).
  - f_equal. rewrite C'.
    rewrite (join_lines_app before l (logger_statement filepath :: after)).
    f_equal. unfold logger_line. simpl app. f_equal.
    destruct after; [now rewrite app_nil_r|reflexivity].
  - now destruct before.
  - apply Forall_app. split; [assumption|].
    constructor; [assumption|].
    constructor; [apply logger_statement_no_newline|assumption].
Qed.

Lemma reference_in_line (content : str) :
  has_logger_reference content = true ->
  exists l, In l (split_on NL content) /\ has_logger_reference l = true.
Proof.
  unfold has_logger_reference. intros H.
  apply orb_true_iff in H as [H|H]; apply contains_occurs in H;
    rewrite <- (join_split content) in H;
    apply occurs_in_line in H as (l & I & O);
    try discriminate;
    try (destruct (split_on_cons NL content) as (x & xs & ->); discriminate);
    try (simpl; unfold NL; intuition discriminate);
    exists l; (split; [assumption|]); apply contains_occurs in O; rewrite O;
    [reflexivity|apply orb_true_r].
Qed.

(** Outside depth two, an insertion is followed by another one: the
    inserter run on its own result adds the import a second time. *)
Theorem import_added_again (content filepath : str) :
  count_char "/" filepath <> 3 ->
  snd (add_logger_import content filepath) = true ->
  snd (add_logger_import (fst (add_logger_import content filepath)) filepath)
  = true.
Proof.
  intros D H.
  destruct (add_logger_import content filepath) as [content' flag] eqn:A.
  simpl in H. subst flag. simpl fst.
  destruct (added_lines content filepath content' A)
    as (before & l & after & E & E').
  apply (require_line_adds content' filepath (logger_statement filepath)).
  - destruct (has_logger_reference content') eqn:R; [exfalso|reflexivity].
    apply reference_in_line in R as (x & I & Rx).
    rewrite E' in I.
    assert (Hx : In x (split_on NL content) \/ x = logger_statement filepath).
    { rewrite E. apply in_app_iff in I as [I|[I|[I|I]]].
      - left. apply in_app_iff. now left.
      - left. apply in_app_iff. right. now left.
      - now right.
      - left. apply in_app_iff. right. now right. }
    destruct Hx as [Hx| ->].
    + pose proof (added_no_reference content filepath content' A) as Rc.
      unfold has_logger_reference in Rx, Rc.
      apply orb_false_iff in Rc as [Rc1 Rc2].
      apply orb_true_iff in Rx as [Rx|Rx]; apply contains_occurs in Rx;
        apply (line_occurs _ content x Hx) in Rx; apply contains_occurs in Rx;
        congruence.
    + rewrite (statement_no_reference filepath D) in Rx. discriminate.
  - rewrite E'. apply in_app_iff. right. right. now left.
  - apply statement_is_require_line.
Qed.

Lemma import_added_again_witness :
  count_char "/" (lit "src/a.js") <> 3
  /\ snd (add_logger_import a_js (lit "src/a.js")) = true
  /\ snd (add_logger_import (fst (add_logger_import a_js (lit "src/a.js")))
            (lit "src/a.js")) = true.
Proof.
  assert (D : count_char "/" (lit "src/a.js") <> 3) by discriminate.
  assert (H : snd (add_logger_import a_js (lit "src/a.js")) = true)
    by (vm_compute; reflexivity).
  split; [exact D|]. split; [exact H|].
  exact (import_added_again a_js (lit "src/a.js") D H).
Defined.

(** C3. A logger reference is recognised at one depth only: the presence
    test looks for the path [../../utils/logger].  A text that holds, as a
    line of its own and in either quote style, the import of the very path
    the inserter computes for the file, and that does not hold the
    depth-two path, is not returned unchanged: a second import line is put
    into it. *)
Theorem reference_at_other_depth_ignored (content filepath : str) (q : ascii) :
  q = SQ \/ q = DQ ->
  In (lit "const logger = require(" ++ q :: logger_path filepath ++ q :: lit ");")
    (split_on NL content) ->
  ~ occurs (lit "require('../../utils/logger')") content ->
  ~ occurs (lit "require(" ++ [DQ] ++ lit "../../utils/logger" ++ [DQ] ++ lit ")")
      content ->
  exists content' before l after,
    add_logger_import content filepath = (content', true)
    /\ content' <> content
    /\ split_on NL content = before ++ l :: after
    /\ split_on NL content'
       = before ++ l :: logger_statement filepath :: after.
Proof.
  intros Hq I N1 N2.
  set (line := lit "const logger = require(" ++ q :: logger_path filepath
                 ++ q :: lit ");") in *.
  assert (Href : has_logger_reference content = false).
  { unfold has_logger_reference. apply orb_false_iff. split.
    - destruct (contains (lit "require('../../utils/logger')") content) eqn:C;
        [|reflexivity].
      exfalso. apply N1. now apply contains_occurs.
    - destruct (contains (lit "require(" ++ [DQ] ++ lit "../../utils/logger"
                            ++ [DQ] ++ lit ")") content) eqn:C; [|reflexivity].
      exfalso. apply N2. now apply contains_occurs. }
  assert (Hp : ~ In NL (logger_path filepath)).
  { pose proof (logger_statement_no_newline filepath) as Hs.
    unfold logger_statement in Hs. rewrite !not_in_app in Hs. tauto. }
  assert (Hn : q <> NL) by (destruct Hq as [->| ->]; discriminate).
  assert (R : is_require_line line).
  { exists (lit "logger"), (q :: logger_path filepath ++ [q]).
    split; [discriminate|]. split; [discriminate|]. split.
    - unfold line. rewrite not_in_app. split.
      + simpl. unfold NL. intuition discriminate.
      + intros [E|J]; [now apply Hn|].
        apply in_app_iff in J as [J|[E|J]]; [now apply Hp|now apply Hn|].
        simpl in J. unfold NL in J. intuition discriminate.
    - unfold line. norm_app. reflexivity. }
  pose proof (require_line_adds content filepath line Href I R) as A.
  destruct (add_logger_import content filepath) as [content' flag] eqn:Ea.
  simpl in A. subst flag.
  destruct (added_lines content filepath content' Ea)
    as (before & l & after & E & E').
  exists content', before, l, after. repeat split; try assumption.
  intros ->. rewrite E in E'.
  apply (f_equal (@length str)) in E'. rewrite !length_app in E'.
  simpl in E'. lia.
Qed.

Lemma reference_at_other_depth_ignored_witness :
  let filepath := lit "src/lib/util.js" in
  let content :=
    lit "const logger = require(" ++ DQ :: lit "../utils/logger" ++ DQ
      :: lit ");" ++ NL :: lit "console.log('a');" ++ [NL] in
  (DQ = SQ \/ DQ = DQ)
  /\ In (lit "const logger = require(" ++ DQ :: logger_path filepath ++ DQ
           :: lit ");") (split_on NL content)
  /\ ~ occurs (lit "require('../../utils/logger')") content
  /\ ~ occurs (lit "require(" ++ [DQ] ++ lit "../../utils/logger" ++ [DQ]
                 ++ lit ")") content
  /\ exists content' before l after,
      add_logger_import content filepath = (content', true)
      /\ content' <> content
      /\ split_on NL content = before ++ l :: after
      /\ split_on NL content'
         = before ++ l :: logger_statement filepath :: after.
Proof.
  intros filepath content.
  assert (Hq : DQ = SQ \/ DQ = DQ) by (now right).
  assert (I : In (lit "const logger = require(" ++ DQ :: logger_path filepath
                    ++ DQ :: lit ");") (split_on NL content))
    by (vm_compute; left; reflexivity).
  assert (N1 : ~ occurs (lit "require('../../utils/logger')") content)
    by (intros O; apply contains_occurs in O; vm_compute in O; discriminate).
  assert (N2 : ~ occurs (lit "require(" ++ [DQ] ++ lit "../../utils/logger"
                           ++ [DQ] ++ lit ")") content)
    by (intros O; apply contains_occurs in O; vm_compute in O; discriminate).
  split; [exact Hq|]. split; [exact I|]. split; [exact N1|].
  split; [exact N2|].
  exact (reference_at_other_depth_ignored content filepath DQ Hq I N1 N2).
Defined.

(** ** The count and the text *)

(** Every substitution adds a letter g: [console] has none, [logger] has
    two, and [log] gives way to [info]. *)
Lemma hit_adds_g (r : rule) adv prev s n gs :
  In r rules ->
  match_here (fst r) adv prev s = Some (n, gs) ->
  1 <= n <= length s
  /\ count_char "g" (firstn n s) < count_char "g" (expand (snd r) gs).
Proof.
  intros I M. apply match_here_sound in M as (m & rest & -> & <- & D & _).
  rewrite firstn_app, firstn_all, Nat.sub_diag, firstn_O, app_nil_r, length_app.
  unfold rules in I. simpl in I.
  destruct I as [<-|[<-|[<-|[<-|[<-|[<-|[<-|[<-|[]]]]]]]]];
    first [ apply error_object_denotes in D as (msg & ws & Hm & Hws & -> & ->);
            assert (Hg : count_char "g" ws = 0)
              by (apply count_char_zero; now apply space_not_in);
            unfold error_object_call, error_object_rule, expand, snd;
            split; [rewrite length_app; simpl; lia|];
            repeat (simpl; rewrite count_char_app); simpl;
            rewrite ?count_char_app, ?Hg; simpl; lia
          | apply message_denotes in D as (msg & Hm & -> & ->);
            unfold message_call, message_rule, expand, snd;
            split; [rewrite length_app; simpl; lia|];
            repeat (simpl; rewrite count_char_app); simpl;
            rewrite ?count_char_app; simpl; lia ].
Qed.

Lemma scan_adds_g (r : rule) (s : str) :
  In r rules ->
  forall skip prev,
    skip <= length s ->
    count_char "g" (skipn skip s) + hits (scan (fst r) skip prev s)
    <= count_char "g" (render (snd r) (scan (fst r) skip prev s)).
Proof.
  intros I. induction s as [|c s IH]; intros skip prev Hs.
  - simpl in Hs. replace skip with 0 by lia. simpl.
    destruct (match_here (fst r) false prev []) as [[n gs]|] eqn:M;
      [|unfold hits, render; simpl; lia].
    apply (hit_adds_g r _ _ _ _ _ I) in M as [[H1 H2] _]. simpl in H2. lia.
  - destruct skip as [|k].
    + simpl skipn.
      destruct (match_here (fst r) false prev (c :: s)) as [[n gs]|] eqn:M.
      * pose proof (hit_adds_g r _ _ _ _ _ I M) as [[H1 H2] Hg].
        destruct n as [|n]; [lia|].
        rewrite (scan_cons_hit _ _ _ _ _ _ M), render_cons, count_char_app.
        specialize (IH n (Some c)). simpl in H2.
        assert (Hn : n <= length s) by lia. specialize (IH Hn).
        rewrite <- (firstn_skipn (S n) (c :: s)) at 1.
        rewrite count_char_app.
        change (skipn (S n) (c :: s)) with (skipn n s).
        unfold hits in *. simpl filter. simpl length. lia.
      * rewrite (scan_cons_copy _ _ _ _ M), render_cons.
        specialize (IH 0 (Some c)). simpl skipn in IH.
        assert (H0 : 0 <= length s) by lia. specialize (IH H0).
        unfold hits in *. simpl filter. simpl app. simpl count_char. lia.
    + change (scan (fst r) (S k) prev (c :: s))
        with (scan (fst r) k (Some c) s).
      change (skipn (S k) (c :: s)) with (skipn k s).
      apply IH. simpl in Hs. lia.
Qed.

Lemma apply_rules_add_g (rs : list rule) :
  (forall r, In r rs -> In r rules) ->
  forall text n,
    count_char "g" text + (snd (fold_left apply_rule rs (text, n)) - n)
    <= count_char "g" (fst (fold_left apply_rule rs (text, n))).
Proof.
  induction rs as [|r rs IH]; intros H text n; simpl; [lia|].
  rewrite apply_rule_eq.
  assert (I : In r rules) by (apply H; now left).
  pose proof (scan_adds_g r text I 0 None (Nat.le_0_l _)) as G.
  simpl skipn in G.
  specialize (IH (fun r' I' => H r' (or_intror I'))
                (fst (subn (fst r) (snd r) text))
                (n + snd (subn (fst r) (snd r) text))).
  pose proof (apply_rules_count_le rs (fst (subn (fst r) (snd r) text))
                (n + snd (subn (fst r) (snd r) text))) as Hle.
  unfold subn in *. simpl fst in *. simpl snd in *. lia.
Qed.

Lemma no_call_quiet (text : str) :
  (forall m, occurs m text -> ~ convertible m) ->
  replace_console_statements text = (text, 0).
Proof.
  intros H. unfold replace_console_statements.
  apply apply_rules_quiet. intros r I. apply subn_quiet. intros a b ->.
  destruct (match_here (fst r) false (prev_of None a) b) eqn:E; [|reflexivity].
  destruct (match_convertible r a b I) as (m & rest & -> & C).
  - rewrite E. discriminate.
  - exfalso. apply (H m); [|assumption]. now exists a, rest.
Qed.

(** The count that the rewriter returns is zero exactly when it returns
    the text unchanged: it never counts a substitution that left the text
    as it was, and never changes the text without counting. *)
Theorem count_zero_iff_unchanged (text : str) :
  snd (replace_console_statements text) = 0
  <-> fst (replace_console_statements text) = text.
Proof.
  split.
  - intros Z. unfold replace_console_statements in *.
    rewrite (apply_rules_quiet rules text 0); [reflexivity|].
    intros r I. apply subn_no_hit. exact (apply_rules_zero rules text Z r I).
  - intros E.
    pose proof (apply_rules_add_g rules (fun r I => I) text 0) as G.
    unfold replace_console_statements in *. rewrite E in G. lia.
Qed.

(** The count is zero exactly when the text holds no call of the eight
    shapes. *)
Theorem count_zero_iff_no_call (text : str) :
  snd (replace_console_statements text) = 0
  <-> forall m, occurs m text -> ~ convertible m.
Proof.
  split.
  - intros Z m O C. pose proof (convertible_counted text m O C). lia.
  - intros H. now rewrite (no_call_quiet text H).
Qed.

(** ** A run on a file tree *)

Lemma str_eqb_eq (a b : str) : str_eqb a b = true <-> a = b.
Proof.
  revert b. induction a as [|x a IH]; intros [|y b]; simpl;
    try (split; [discriminate|discriminate]); [tauto|].
  rewrite andb_true_iff, Ascii.eqb_eq, IH. split.
  - now intros [-> ->].
  - now intros [= -> ->].
Qed.

Lemma lookup_store_other (p q c : str) (t : tree) :
  p <> q -> lookup p (store q c t) = lookup p t.
Proof.
  intros N. induction t as [|[k v] t IH]; simpl.
  - destruct (str_eqb q p) eqn:E; [|reflexivity].
    apply str_eqb_eq in E. congruence.
  - destruct (str_eqb k q) eqn:Q; simpl.
    + apply str_eqb_eq in Q. subst k.
      destruct (str_eqb q p) eqn:E; [|reflexivity].
      apply str_eqb_eq in E. congruence.
    + now rewrite IH.
Qed.

Lemma store_keeps_paths (q c : str) (t : tree) :
  lookup q t <> None -> map fst (store q c t) = map fst t.
Proof.
  induction t as [|[k v] t IH]; simpl; intros H; [now destruct H|].
  destruct (str_eqb k q); simpl; [reflexivity|]. f_equal. now apply IH.
Qed.

Lemma process_file_tree (t t' : tree) (f : str) (l : file_log) :
  process_file run_tree read_tree write_tree t f = Some (t', l) ->
  map fst t' = map fst t /\ forall p, p <> f -> lookup p t' = lookup p t.
Proof.
  unfold process_file, read_tree, write_tree. intros H.
  destruct (lookup f t) as [content|] eqn:L; [|discriminate].
  cbn [option_map] in H.
  destruct (add_logger_import (universal_newlines content) f) as [c1 added].
  destruct (replace_console_statements c1) as [c2 count].
  cbv beta iota in H. injection H as <- _. split.
  - apply store_keeps_paths. now rewrite L.
  - intros p N. now apply lookup_store_other.
Qed.

Lemma process_files_tree (files : list str) :
  forall t a b logs t' a' b' logs',
    process_files run_tree read_tree write_tree t files a b logs
    = Some (t', a', b', logs') ->
    map fst t' = map fst t
    /\ forall p, ~ In p files -> lookup p t' = lookup p t.
Proof.
  induction files as [|f files IH]; intros t a b logs t' a' b' logs' H;
    simpl in H.
  - injection H as <- _ _ _. now split.
  - destruct (process_file run_tree read_tree write_tree t f)
      as [[t1 l]|] eqn:P; [|discriminate].
    apply process_file_tree in P as [P1 P2].
    apply IH in H as [H1 H2]. split; [congruence|].
    intros p N. rewrite H2, P2; [reflexivity| |];
      intros E; apply N; [now left|now right].
Qed.

(** On a tree whose paths hold no line break, a run creates no file and
    removes none, and it leaves every file that the locator did not return
    as it was. *)
Theorem tree_run_isolated (t t' : tree) (s : summary) :
  plain_paths t ->
  main_tree t = Some (t', s) ->
  map fst t' = map fst t
  /\ forall files p,
      find_files_with_console (run_tree t) = Some files ->
      ~ In p files -> lookup p t' = lookup p t.
Proof.
  unfold main_tree, main. intros _ H.
  destruct (find_files_with_console (run_tree t)) as [files|]; [|discriminate].
  destruct files as [|f files].
  - injection H as <- _. split; [reflexivity|]. intros; reflexivity.
  - destruct (process_files run_tree read_tree write_tree t (f :: files) 0 0 [])
      as [[[[t1 a1] b1] logs1]|] eqn:P; [|discriminate].
    destruct (find_files_with_console (run_tree t1)); [|discriminate].
    injection H as <- _.
    apply process_files_tree in P as [P1 P2]. split; [assumption|].
    intros files' p [= <-] N. now apply P2.
Qed.

Lemma tree_run_isolated_witness :
  exists t' s,
    (plain_paths mixed_tree /\ main_tree mixed_tree = Some (t', s))
    /\ map fst t' = map fst mixed_tree
    /\ forall files p,
        find_files_with_console (run_tree mixed_tree) = Some files ->
        ~ In p files -> lookup p t' = lookup p mixed_tree.
Proof.
  destruct (main_tree mixed_tree) as [[t' s]|] eqn:M;
    [|vm_compute in M; discriminate].
  assert (P : plain_paths mixed_tree)
    by (repeat constructor; simpl; unfold NL; intuition discriminate).
  exists t', s. split; [split; [exact P|reflexivity]|].
  exact (tree_run_isolated mixed_tree t' s P M).
Defined.

(** ** Any call of the eight shapes, in any text *)

Lemma tail_ok_no_dq (tail : str) : tail_ok tail -> ~ In DQ tail.
Proof.
  intros [->|(ws & Hws & ->)].
  - simpl. unfold DQ. intuition discriminate.
  - rewrite !not_in_app.
    repeat split; try (simpl; unfold DQ; intuition discriminate).
    now apply space_not_in.
Qed.

Lemma tail_ok_plain (tail : str) : tail_ok tail -> plain_tail tail.
Proof.
  intros Ht. destruct (tail_ok_facts tail Ht) as (Tsq & _ & Tc & _).
  split; [assumption|]. split; [now apply tail_ok_no_dq|].
  intros t1 t2 b z -> N E. destruct t2 as [|c t2]; [now destruct N|].
  simpl in E. injection E as -> _. apply Tc. apply in_app_iff. right. now left.
Qed.

Lemma log_tail_plain :
  plain_tail (lit ", { error: error.message, stack: error.stack });").
Proof.
  split; [simpl; unfold SQ; intuition discriminate|].
  split; [simpl; unfold DQ; intuition discriminate|].
  intros t1 t2 b z E N E2.
  apply (start_conflict
           (lit ", { error: error.message, stack: error.stack });")
           (lit "console.") t1 t2 b z);
    [vm_compute; reflexivity|exact E|exact N|exact E2].
Qed.

(** Through a list of rules: a text property [P] that every rule keeps or
    turns into [Q], that one rule of the list turns into [Q], and [Q] kept
    by every rule. *)
Lemma apply_rules_convert (P Q : str -> Prop) (rs : list rule) :
  (forall r, In r rs -> forall t, Q t -> Q (fst (subn (fst r) (snd r) t))) ->
  (forall r, In r rs ->
             (forall t, P t -> P (fst (subn (fst r) (snd r) t)))
             \/ (forall t, P t -> Q (fst (subn (fst r) (snd r) t)))) ->
  (exists r, In r rs /\ forall t, P t -> Q (fst (subn (fst r) (snd r) t))) ->
  forall t n, P t -> Q (fst (fold_left apply_rule rs (t, n))).
Proof.
  induction rs as [|r rs IH]; intros HQ HP (r0 & I0 & C0) t n Pt.
  - destruct I0.
  - simpl. rewrite apply_rule_eq.
    destruct (HP r (or_introl eq_refl)) as [K|C].
    + destruct I0 as [E0|I0].
      * subst r0. apply apply_rules_keep;
          [intros r' I'; apply HQ; now right|now apply C0].
      * apply IH; [intros r' I'; apply HQ; now right
                  |intros r' I'; apply HP; now right
                  |now exists r0|now apply K].
    + apply apply_rules_keep;
        [intros r' I'; apply HQ; now right|now apply C].
Qed.

Ltac fixed_shape name q :=
  let M := fresh "M" in
  let D := fresh "D" in
  let m := fresh "m" in
  let rest := fresh "rest" in
  let msg := fresh "msg" in
  let ws := fresh "ws" in
  let Hm := fresh "Hm" in
  let Hws := fresh "Hws" in
  exists name, q; split; [unfold console_name; auto|]; split; [auto|];
  intros ? ? ? ? ? M;
  apply match_here_sound in M as (m & rest & -> & <- & D & _);
  first [ apply error_object_denotes in D as (msg & ws & Hm & Hws & -> & _);
          exists msg, (lit "," ++ ws ++ lit "error);"), rest
        | apply message_denotes in D as (msg & Hm & -> & _);
          exists msg, (lit ");"), rest ];
  (split; [exact Hm|]);
  (split; [first [now left|right; eexists; split; [eassumption|reflexivity]]|]);
  (split; [|f_equal]);
  unfold error_object_call, message_call; norm_app; reflexivity.

(** The name and the quote of the calls a rule matches depend on the rule
    only. *)
Lemma rule_shape_fixed (r : rule) :
  In r rules ->
  exists name q,
    console_name name /\ (q = SQ \/ q = DQ)
    /\ forall adv prev s n gs,
        match_here (fst r) adv prev s = Some (n, gs) ->
        exists msg tail rest,
          message_of q msg /\ tail_ok tail
          /\ s = (lit name ++ lit "(" ++ [q]) ++ msg ++ q :: tail ++ rest
          /\ n = length ((lit name ++ lit "(" ++ [q]) ++ msg ++ q :: tail).
Proof.
  intros I. unfold rules in I. simpl in I.
  destruct I as [<-|[<-|[<-|[<-|[<-|[<-|[<-|[<-|[]]]]]]]]].
  - fixed_shape "console.error"%string SQ.
  - fixed_shape "console.error"%string DQ.
  - fixed_shape "console.error"%string SQ.
  - fixed_shape "console.error"%string DQ.
  - fixed_shape "console.log"%string SQ.
  - fixed_shape "console.log"%string DQ.
  - fixed_shape "console.warn"%string SQ.
  - fixed_shape "console.warn"%string DQ.
Qed.

(** Two calls that start a text alike are quoted alike. *)
Lemma call_quote (cname name : string) (q0 q : ascii) (y y' : str) :
  console_name cname -> console_name name ->
  lit cname ++ lit "(" ++ q0 :: y = lit name ++ lit "(" ++ q :: y' ->
  q = q0.
Proof.
  intros [->|[->| ->]] [->|[->| ->]] E; simpl in E; congruence.
Qed.

Ltac no_match_at_start :=
  let b := fresh "b" in
  let prev := fresh "prev" in
  let M := fresh "M" in
  let E := fresh "E" in
  let D := fresh "D" in
  let Hq := fresh "Hq" in
  intros b prev;
  match goal with
  | |- ?m = None => destruct m as [[? ?]|] eqn:M; [exfalso|reflexivity]
  end;
  apply match_here_sound in M as (? & ? & E & _ & D & _);
  first [ apply error_object_denotes in D as (? & ? & [_ Hq] & _ & -> & _)
        | apply message_denotes in D as (? & [_ Hq] & -> & _) ];
  unfold quoted_call, error_object_call, message_call in E;
  repeat (simpl in E; rewrite <- app_assoc in E); simpl in E;
  unfold SQ, DQ in E;
  first [ discriminate E
        | injection E as E; apply span_unique in E as [_ E];
          try assumption; discriminate E ].

Ltac match_at_start X :=
  let b := fresh "b" in
  let prev := fresh "prev" in
  let M := fresh "M" in
  let M' := fresh "M" in
  let E := fresh "E" in
  let D := fresh "D" in
  let Hq := fresh "Hq" in
  intros b prev;
  match goal with
  | |- exists _, match_here ?p false prev (?call ++ b) = _ =>
      destruct (match_here_complete p prev call b [X]) with (adv := false)
        as (? & ? & M)
  end;
  [ first [ apply error_object_denotes; eexists X, _;
            split; [split; assumption|];
            split; [eassumption|]; split; reflexivity
          | apply message_denotes; exists X;
            split; [split; assumption|]; split; reflexivity ]
  | discriminate
  | pose proof M as M';
    apply match_here_sound in M' as (? & ? & E & <- & D & _);
    first [ apply error_object_denotes in D as (? & ? & [_ Hq] & _ & -> & ->)
          | apply message_denotes in D as (? & [_ Hq] & -> & ->) ];
    unfold quoted_call, error_object_call, message_call in E;
    repeat (simpl in E; rewrite <- app_assoc in E); simpl in E;
    injection E as E; apply span_unique in E as [<- _]; try assumption;
    rewrite M; unfold error_object_call, message_call; simpl length;
    eexists; reflexivity ].

Section PlainCall.

Variable X : str.
Hypothesis X_nonempty : X <> [].
Hypothesis X_no_sq : ~ In SQ X.
Hypothesis X_no_dq : ~ In DQ X.
Hypothesis X_no_semicolon : ~ In ";"%char X.
Hypothesis X_no_console : ~ occurs (lit "console.") X.

(** A match that starts before a call [hname(q0 X q0 tl] and reaches into
    it is quoted the other way and holds the whole call in its message. *)
Lemma align_any (hname : string) (tl : str) (q0 : ascii)
  name q msg tail rest u b :
  console_name hname \/ logger_name hname ->
  q0 = SQ \/ q0 = DQ -> ~ In SQ tl -> ~ In DQ tl ->
  console_name name -> q = SQ \/ q = DQ -> message_of q msg -> tail_ok tail ->
  u <> [] ->
  u ++ quoted_call hname q0 X tl ++ b
  = (lit name ++ lit "(" ++ [q]) ++ msg ++ q :: tail ++ rest ->
  length u < length ((lit name ++ lit "(" ++ [q]) ++ msg ++ q :: tail) ->
  q <> q0 /\ exists m1 m2, msg = m1 ++ quoted_call hname q0 X tl ++ m2.
Proof.
  intros Hh Hq0 Tsq0 Tdq0 Hn Hq [Hmne Hmq] Ht Hu E L.
  destruct (tail_ok_facts tail Ht) as (Tsq & Tsc & Tc & Tl).
  pose proof (tail_ok_no_dq tail Ht) as Tdq.
  set (V := quoted_call hname q0 X tl) in *.
  set (w := lit name ++ lit "(" ++ [q]) in *.
  set (head := lit hname ++ lit "(").
  assert (Vq : V ++ b = (head ++ [q0]) ++ X ++ q0 :: tl ++ b).
  { unfold V, quoted_call, head. norm_app. reflexivity. }
  assert (Vhd : exists c0 y, V ++ b = c0 :: y /\ (c0 = "c"%char \/ c0 = "l"%char)).
  { unfold V, quoted_call.
    destruct Hh as [[->|[->| ->]]|[->|[->| ->]]]; eexists _, _; split;
      try reflexivity; auto. }
  assert (Hsq : ~ In SQ head /\ ~ In DQ head).
  { unfold head.
    destruct Hh as [[->|[->| ->]]|[->|[->| ->]]]; split; simpl;
      unfold SQ, DQ; intuition discriminate. }
  assert (Hhq : ~ In q0 head) by (destruct Hq0 as [->| ->]; tauto).
  assert (Tq : forall c, c = SQ \/ c = DQ -> ~ In c tail)
    by (intros c [->| ->]; assumption).
  assert (K : forall u', u = w ++ u' ->
                         u' ++ V ++ b = msg ++ q :: tail ++ rest ->
                         q <> q0 /\ exists m1 m2, msg = m1 ++ V ++ m2).
  { intros u' -> E'. rewrite !length_app in L.
    apply app_eq_app in E' as (l & [[E1 E2]|[E1 E2]]).
    - exfalso. subst u'. rewrite length_app in L.
      destruct Vhd as (c0 & y & Ey & Hc0). rewrite Ey in E2.
      destruct l as [|q' l'].
      + injection E2 as -> _.
        destruct Hq as [Hq|Hq], Hc0 as [Hc|Hc]; rewrite Hq in Hc; discriminate.
      + injection E2 as <- E2. simpl in L.
        apply app_eq_app in E2 as (l2 & [[E3 E4]|[E3 E4]]).
        * destruct l2 as [|c1 l2].
          -- rewrite app_nil_r in E3. subst l'. lia.
          -- injection E4 as <- _. subst tail.
             destruct Hc0 as [->| ->]; [apply Tc|apply Tl];
               apply in_app_iff; right; now left.
        * subst l'. rewrite length_app in L. lia.
    - subst msg. rewrite not_in_app in Hmq. destruct Hmq as [_ Hl].
      destruct (ascii_dec q q0) as [->|Hne].
      + exfalso. rewrite Vq, <- app_assoc in E2. simpl in E2.
        apply span_unique in E2 as [_ E2]; try assumption.
        symmetry in E2.
        apply prefix_before_sep in E2 as (l2 & E2); [|now apply Tq].
        apply X_no_semicolon. rewrite E2. apply in_app_iff. now left.
      + split; [assumption|].
        assert (Vnq : ~ In q V).
        { unfold V, quoted_call. destruct Hsq as [H1 H2]. fold head.
          rewrite app_assoc. rewrite not_in_app. split.
          - destruct Hq as [->| ->]; assumption.
          - intros [I|I]; [congruence|].
            apply in_app_iff in I as [I|[I|I]]; [|congruence|].
            + destruct Hq as [->| ->]; tauto.
            + destruct Hq as [->| ->]; tauto. }
        apply prefix_before_sep in E2 as (l2 & ->); [|assumption].
        now exists u', l2. }
  apply app_eq_app in E as (l & [[E1 E2]|[E1 E2]]).
  - apply (K l); [assumption|now symmetry].
  - destruct l as [|a l].
    + rewrite app_nil_r in E1. apply (K []); [now rewrite app_nil_r|].
      simpl. exact E2.
    + exfalso. rewrite Vq, <- app_assoc in E2. symmetry in E2.
      apply (overlap_conflict w (head ++ [q0]) u (a :: l)
               (msg ++ q :: tail ++ rest) (X ++ q0 :: tl ++ b));
        try assumption; try discriminate.
      * unfold w, head.
        destruct Hn as [->|[->| ->]], Hq as [->| ->], Hq0 as [->| ->],
          Hh as [[->|[->| ->]]|[->|[->| ->]]]; vm_compute; reflexivity.
      * rewrite <- app_assoc. exact E2.
Qed.

(** No call starts inside [logger.*(q0 X q0 tl], and none inside
    [console.*(q0 X q0 tl] after its first character. *)
Lemma no_console_inside_any (hname : string) (q0 : ascii)
  (tl t1 t2 b z : str) :
  logger_name hname \/ (console_name hname /\ t1 <> []) ->
  q0 = SQ \/ q0 = DQ -> plain_tail tl ->
  quoted_call hname q0 X tl = t1 ++ t2 -> t2 <> [] ->
  t2 ++ b = lit "console." ++ z -> False.
Proof.
  intros Hh Hq0 (_ & _ & Hcalm) E N E2.
  assert (Kq : ~ In q0 (lit "console."))
    by (destruct Hq0 as [->| ->]; simpl; unfold SQ, DQ; intuition discriminate).
  set (A := lit hname ++ lit "(" ++ [q0]).
  assert (ET : quoted_call hname q0 X tl = A ++ X ++ q0 :: tl)
    by (unfold quoted_call, A; norm_app; reflexivity).
  rewrite ET in E.
  apply app_eq_app in E as (l & [[E1 E3]|[E1 E3]]).
  - (* [t2] starts inside [A] *)
    destruct l as [|a l].
    + simpl in E3. subst t2. rewrite <- app_assoc in E2. symmetry in E2.
      apply (prefix_before_sep q0 (lit "console.") z X (tl ++ b) Kq) in E2
        as (l2 & E2).
      apply X_no_console. exists [], l2. exact E2.
    + subst t2. rewrite <- !app_assoc in E2.
      destruct Hh as [Hl|[Hc Ht1]].
      * apply (start_conflict A (lit "console.") t1 (a :: l)
                 (X ++ (q0 :: tl) ++ b) z);
          [|assumption|discriminate|exact E2].
        unfold A. destruct Hl as [->|[->| ->]], Hq0 as [->| ->];
          vm_compute; reflexivity.
      * apply (overlap_conflict A (lit "console.") t1 (a :: l)
                 (X ++ (q0 :: tl) ++ b) z);
          [|assumption|assumption|discriminate|exact E2].
        unfold A. destruct Hc as [->|[->| ->]], Hq0 as [->| ->];
          vm_compute; reflexivity.
  - apply app_eq_app in E3 as (l' & [[E4 E5]|[E4 E5]]).
    + (* [t2] starts inside [X] *)
      subst t2. rewrite <- app_assoc in E2. symmetry in E2.
      apply (prefix_before_sep q0 (lit "console.") z l' (tl ++ b) Kq) in E2
        as (l2 & ->).
      apply X_no_console. exists l, l2. exact E4.
    + (* [t2] starts at the closing quote or after it *)
      destruct l' as [|c l'].
      * simpl in E5. subst t2. simpl in E2. injection E2 as Eq _.
        rewrite Eq in Hq0. destruct Hq0; discriminate.
      * injection E5 as _ E5. exact (Hcalm l' t2 b z E5 N E2).
Qed.

Lemma no_match_inside_any (r : rule) (hname : string) (q0 : ascii)
  (tl t1 t2 b : str) prev :
  In r rules ->
  logger_name hname \/ (console_name hname /\ t1 <> []) ->
  q0 = SQ \/ q0 = DQ -> plain_tail tl ->
  quoted_call hname q0 X tl = t1 ++ t2 -> t2 <> [] ->
  match_here (fst r) false prev (t2 ++ b) = None.
Proof.
  intros I Hh Hq0 Hp E N.
  destruct (match_here (fst r) false prev (t2 ++ b)) as [[n gs]|] eqn:M;
    [exfalso|reflexivity].
  apply (rule_match_shape r _ _ _ _ _ I) in M
    as (name & q & msg & tail & rest & Hn & _ & _ & _ & Es & _).
  rewrite <- !app_assoc in Es.
  destruct (console_start name (lit "(" ++ [q] ++ msg ++ q :: tail ++ rest) Hn)
    as (z & Ez).
  rewrite Ez in Es.
  exact (no_console_inside_any hname q0 tl t1 t2 b z Hh Hq0 Hp E N Es).
Qed.

(** A rule keeps an occurrence of a call [hname(q0 X q0 tl] that it does
    not match where the call starts. *)
Lemma call_kept (r : rule) (hname : string) (q0 : ascii) (tl text : str) :
  In r rules ->
  logger_name hname
  \/ (console_name hname
      /\ forall b prev,
          match_here (fst r) false prev (quoted_call hname q0 X tl ++ b)
          = None) ->
  q0 = SQ \/ q0 = DQ -> plain_tail tl ->
  occurs (quoted_call hname q0 X tl) text ->
  occurs (quoted_call hname q0 X tl) (fst (subn (fst r) (snd r) text)).
Proof.
  intros I Hh Hq0 Hp (a & b & ->). unfold subn, fst at 1.
  apply scan_preserve with (v := quoted_call hname q0 X tl); [| |lia].
  - intros u prev n gs Hu M.
    apply (rule_match_shape r _ _ _ _ _ I) in M
      as (name & q & msg & tail & rest & Hn & Hq & Hm & Ht & Es & -> & name'
          & tail' & ->).
    split; [rewrite !length_app; simpl; lia|].
    destruct (le_lt_dec
                (length ((lit name ++ lit "(" ++ [q]) ++ msg ++ q :: tail))
                (length u)) as [Hle|Hlt]; [now left|right].
    destruct Hp as (Tsq & Tdq & _).
    destruct (align_any hname tl q0 name q msg tail rest u b)
      as (_ & m1 & m2 & ->); try assumption.
    + destruct Hh as [Hl|[Hc _]]; [now right|now left].
    + exists (lit name' ++ q :: m1), (m2 ++ q :: tail').
      norm_app. reflexivity.
  - intros prev. rewrite scan_copy_prefix.
    + rewrite render_app, render_copy. now eexists.
    + intros v1 v2 E N prev'.
      destruct Hh as [Hl|[Hc Hnone]].
      * apply (no_match_inside_any r hname q0 tl v1 v2); auto.
      * destruct v1 as [|c v1].
        -- simpl in E. subst v2. apply Hnone.
        -- apply (no_match_inside_any r hname q0 tl (c :: v1) v2); auto.
           right. split; [assumption|discriminate].
Qed.

(** A rule that matches a call [cname(q0 X q0 tl] where it starts, with
    [X] as its group, writes its template in the call's place. *)
Lemma call_converted (r : rule) (cname : string) (q0 : ascii)
  (tl target text : str) :
  In r rules -> console_name cname -> q0 = SQ \/ q0 = DQ -> plain_tail tl ->
  (forall b prev, exists n,
      match_here (fst r) false prev (quoted_call cname q0 X tl ++ b)
      = Some (S n, [X])) ->
  expand (snd r) [X] = target ->
  occurs (quoted_call cname q0 X tl) text ->
  occurs target (fst (subn (fst r) (snd r) text)).
Proof.
  intros I Hc Hq0 (Tsq & Tdq & _) Hstart Hex (a & b & ->).
  unfold subn, fst at 1.
  apply scan_preserve with (v := quoted_call cname q0 X tl); [| |lia].
  - intros u prev n gs Hu M.
    destruct (rule_shape_fixed r I) as (name & q & Hn & Hq & F).
    destruct (F _ _ _ _ _ M) as (msg & tail & rest & Hm & Ht & Es & ->).
    split; [rewrite !length_app; simpl; lia|]. left.
    destruct (le_lt_dec
                (length ((lit name ++ lit "(" ++ [q]) ++ msg ++ q :: tail))
                (length u)) as [Hle|Hlt]; [assumption|exfalso].
    destruct (align_any cname tl q0 name q msg tail rest u b)
      as (Hne & _); try assumption; [now left|].
    apply Hne.
    destruct (Hstart b None) as (n0 & M0).
    destruct (F _ _ _ _ _ M0) as (msg0 & tail0 & rest0 & _ & _ & Es0 & _).
    unfold quoted_call in Es0. rewrite <- !app_assoc in Es0.
    exact (call_quote cname name q0 q ((X ++ q0 :: tl) ++ b)
             (msg0 ++ q :: tail0 ++ rest0) Hc Hn Es0).
  - intros prev. destruct (Hstart b prev) as (n0 & M0).
    assert (exists c y, quoted_call cname q0 X tl ++ b = c :: y)
      as (c & y & Ey)
      by (unfold quoted_call; destruct Hc as [->|[->| ->]];
          eexists _, _; reflexivity).
    rewrite Ey in M0 |- *.
    rewrite (scan_cons_hit _ _ _ _ _ _ M0), render_cons.
    eexists. rewrite Hex. reflexivity.
Qed.

(** One call shape through the eight rules: the rule that matches it turns
    it into the logger call, the others leave both alone. *)
Lemma shape_logged (own : rule) (cname lname : string) (q0 : ascii)
  (stl ttl text : str) :
  console_name cname -> logger_name lname -> q0 = SQ \/ q0 = DQ ->
  tail_ok stl -> plain_tail ttl ->
  In own rules ->
  (forall b prev, exists n,
      match_here (fst own) false prev (quoted_call cname q0 X stl ++ b)
      = Some (S n, [X])) ->
  expand (snd own) [X] = quoted_call lname q0 X ttl ->
  (forall r, In r rules ->
     r = own
     \/ forall b prev,
         match_here (fst r) false prev (quoted_call cname q0 X stl ++ b)
         = None) ->
  occurs (quoted_call cname q0 X stl) text ->
  occurs (quoted_call lname q0 X ttl) (fst (replace_console_statements text)).
Proof.
  intros Hc Hl Hq0 Hs Ht I Hstart Hex Hothers O.
  pose proof (tail_ok_plain stl Hs) as Hsp.
  unfold replace_console_statements.
  apply (apply_rules_convert (occurs (quoted_call cname q0 X stl))
           (occurs (quoted_call lname q0 X ttl))); [| | |exact O].
  - intros r Ir t Ot. apply call_kept; auto.
  - intros r Ir. destruct (Hothers r Ir) as [->|Hnone].
    + right. intros t Ot.
      now apply (call_converted own cname q0 stl).
    + left. intros t Ot. apply call_kept; auto.
  - exists own. split; [assumption|]. intros t Ot.
    now apply (call_converted own cname q0 stl).
Qed.

End PlainCall.

Ltac other_rules :=
  let r := fresh "r" in
  let Ir := fresh "Ir" in
  intros r Ir; unfold rules in Ir; simpl in Ir;
  destruct Ir as [<-|[<-|[<-|[<-|[<-|[<-|[<-|[<-|[]]]]]]]]];
  first [left; reflexivity|right; no_match_at_start].

Ltac shape_case X step :=
  step; try assumption;
  [ unfold console_name; auto
  | unfold logger_name; auto
  | auto
  | first [now left|right; eexists; split; [eassumption|reflexivity]]
  | first [exact log_tail_plain|apply tail_ok_plain; now left]
  | unfold rules; simpl; auto 10
  | match_at_start X
  | reflexivity
  | other_rules ].

(** A call of any of the eight shapes whose message holds no quote, no
    semicolon and no [console.] is rewritten wherever it stands: the result
    of the pass holds the logger call with the same message and the same
    quotes. *)
Theorem call_logged (X call target text : str) :
  X <> [] -> ~ In SQ X -> ~ In DQ X -> ~ In ";"%char X ->
  ~ occurs (lit "console.") X ->
  logged_as X call target ->
  occurs call text ->
  occurs target (fst (replace_console_statements text)).
Proof.
  intros Hne Hsq Hdq Hsc Hco L O.
  destruct L as [q ws Hq Hws|q Hq|q Hq|q Hq].
  - destruct Hq as [->| ->].
    + shape_case X ltac:(apply (shape_logged X) with (own := error_object_rule SQ)
        (cname := "console.error"%string) (lname := "logger.error"%string)
        (q0 := SQ) (stl := lit "," ++ ws ++ lit "error);")
        (ttl := lit ", { error: error.message, stack: error.stack });")).
    + shape_case X ltac:(apply (shape_logged X) with (own := error_object_rule DQ)
        (cname := "console.error"%string) (lname := "logger.error"%string)
        (q0 := DQ) (stl := lit "," ++ ws ++ lit "error);")
        (ttl := lit ", { error: error.message, stack: error.stack });")).
  - destruct Hq as [->| ->].
    + shape_case X ltac:(apply (shape_logged X)
        with (own := message_rule "console.error" "logger.error" SQ)
        (cname := "console.error"%string) (lname := "logger.error"%string)
        (q0 := SQ) (stl := lit ");") (ttl := lit ");")).
    + shape_case X ltac:(apply (shape_logged X)
        with (own := message_rule "console.error" "logger.error" DQ)
        (cname := "console.error"%string) (lname := "logger.error"%string)
        (q0 := DQ) (stl := lit ");") (ttl := lit ");")).
  - destruct Hq as [->| ->].
    + shape_case X ltac:(apply (shape_logged X)
        with (own := message_rule "console.log" "logger.info" SQ)
        (cname := "console.log"%string) (lname := "logger.info"%string)
        (q0 := SQ) (stl := lit ");") (ttl := lit ");")).
    + shape_case X ltac:(apply (shape_logged X)
        with (own := message_rule "console.log" "logger.info" DQ)
        (cname := "console.log"%string) (lname := "logger.info"%string)
        (q0 := DQ) (stl := lit ");") (ttl := lit ");")).
  - destruct Hq as [->| ->].
    + shape_case X ltac:(apply (shape_logged X)
        with (own := message_rule "console.warn" "logger.warn" SQ)
        (cname := "console.warn"%string) (lname := "logger.warn"%string)
        (q0 := SQ) (stl := lit ");") (ttl := lit ");")).
    + shape_case X ltac:(apply (shape_logged X)
        with (own := message_rule "console.warn" "logger.warn" DQ)
        (cname := "console.warn"%string) (lname := "logger.warn"%string)
        (q0 := DQ) (stl := lit ");") (ttl := lit ");")).
Qed.

Lemma call_logged_witness :
  let X := lit "cache miss" in
  let call := message_call "console.warn" DQ X in
  let target := message_call "logger.warn" DQ X in
  let text :=
    lit "if (!hit) { " ++ call
      ++ lit " } else { console.log('hit', key); }" ++ [NL] in
  (X <> [] /\ ~ In SQ X /\ ~ In DQ X /\ ~ In ";"%char X
   /\ ~ occurs (lit "console.") X
   /\ logged_as X call target
   /\ occurs call text)
  /\ occurs target (fst (replace_console_statements text)).
Proof.
  intros X call target text.
  assert (H1 : X <> []) by discriminate.
  assert (H2 : ~ In SQ X) by (simpl; unfold SQ; intuition discriminate).
  assert (H3 : ~ In DQ X) by (simpl; unfold DQ; intuition discriminate).
  assert (H4 : ~ In ";"%char X) by (simpl; intuition discriminate).
  assert (H5 : ~ occurs (lit "console.") X)
    by (intros O; apply contains_occurs in O; vm_compute in O; discriminate).
  assert (H6 : logged_as X call target) by (apply Logged_warn; now right).
  assert (H7 : occurs call text)
    by (exists (lit "if (!hit) { "),
          (lit " } else { console.log('hit', key); }" ++ [NL]); reflexivity).
  split; [repeat split; assumption|].
  exact (call_logged X call target text H1 H2 H3 H4 H5 H6 H7).
Defined.

(** ** The rules against one another *)

Ltac shape_in D x Q :=
  first [ apply error_object_denotes in D as (x & ? & [_ Q] & _ & -> & _)
        | apply message_denotes in D as (x & [_ Q] & -> & _) ].

(** No two of the eight rules match at the same place: the order of the
    substitutions never decides which rule rewrites a call. *)
Theorem rules_exclusive (r1 r2 : rule) (s : str) adv1 adv2 prev1 prev2
  n1 n2 gs1 gs2 :
  In r1 rules -> In r2 rules ->
  match_here (fst r1) adv1 prev1 s = Some (n1, gs1) ->
  match_here (fst r2) adv2 prev2 s = Some (n2, gs2) ->
  r1 = r2.
Proof.
  intros I1 I2 M1 M2.
  apply match_here_sound in M1 as (m1 & rest1 & E1 & _ & D1 & _).
  apply match_here_sound in M2 as (m2 & rest2 & E2 & _ & D2 & _).
  rewrite E1 in E2. clear E1.
  unfold rules in I1, I2. simpl in I1, I2.
  destruct I1 as [<-|[<-|[<-|[<-|[<-|[<-|[<-|[<-|[]]]]]]]]];
    destruct I2 as [<-|[<-|[<-|[<-|[<-|[<-|[<-|[<-|[]]]]]]]]];
    try reflexivity; exfalso;
    shape_in D1 x1 Q1; shape_in D2 x2 Q2;
    unfold error_object_call, message_call in E2;
    repeat (simpl in E2; rewrite <- app_assoc in E2); simpl in E2;
    unfold SQ, DQ in E2;
    first [ discriminate E2
          | injection E2 as E2; apply span_unique in E2 as [_ E2];
            try assumption; discriminate E2 ].
Qed.

Lemma rules_exclusive_witness :
  let s := lit "console.error('boom', error); next();" in
  (In (error_object_rule SQ) rules /\ In (error_object_rule SQ) rules
   /\ match_here (fst (error_object_rule SQ)) false None s
      = Some (29, [lit "boom"])
   /\ match_here (fst (error_object_rule SQ)) true (Some NL) s
      = Some (29, [lit "boom"]))
  /\ error_object_rule SQ = error_object_rule SQ.
Proof.
  intros s.
  assert (H1 : In (error_object_rule SQ) rules) by (now left).
  assert (H2 : match_here (fst (error_object_rule SQ)) false None s
               = Some (29, [lit "boom"])) by (vm_compute; reflexivity).
  assert (H3 : match_here (fst (error_object_rule SQ)) true (Some NL) s
               = Some (29, [lit "boom"])) by (vm_compute; reflexivity).
  split; [repeat split; assumption|].
  exact (rules_exclusive (error_object_rule SQ) (error_object_rule SQ) s
           false true None (Some NL) 29 29 [lit "boom"] [lit "boom"]
           H1 H1 H2 H3).
Defined.

(** ** Reading the count *)

Lemma lstrip_plain (c : ascii) (s : str) :
  isspace c = false -> lstrip (c :: s) = c :: s.
Proof. intros H. simpl. now rewrite H. Qed.

Lemma strip_plain (s : str) :
  s <> [] -> Forall (fun c => isspace c = false) s -> strip s = s.
Proof.
  intros N F. unfold strip.
  destruct s as [|c s]; [now destruct N|].
  rewrite lstrip_plain by (now inversion F).
  destruct (rev (c :: s)) as [|d l] eqn:R.
  - apply (f_equal (@length ascii)) in R. rewrite length_rev in R.
    discriminate.
  - rewrite lstrip_plain.
    + now rewrite <- R, rev_involutive.
    + rewrite Forall_forall in F. apply F. apply in_rev. rewrite R. now left.
Qed.

Lemma strip_newline (s : str) :
  s <> [] -> Forall (fun c => isspace c = false) s -> strip (s ++ [NL]) = s.
Proof.
  intros N F. unfold strip.
  destruct s as [|c s]; [now destruct N|].
  change ((c :: s) ++ [NL]) with (c :: (s ++ [NL])).
  rewrite lstrip_plain by (now inversion F).
  change (c :: (s ++ [NL])) with ((c :: s) ++ [NL]).
  rewrite rev_app_distr.
  change (rev [NL] ++ rev (c :: s)) with (NL :: rev (c :: s)).
  change (lstrip (NL :: rev (c :: s))) with (lstrip (rev (c :: s))).
  pose proof (strip_plain (c :: s) N F) as P. unfold strip in P.
  rewrite lstrip_plain in P by (now inversion F). exact P.
Qed.

Lemma uint_string_plain (u : Decimal.uint) :
  Forall (fun c => isspace c = false) (lit (NilEmpty.string_of_uint u)).
Proof.
  unfold lit.
  induction u; simpl; constructor; try reflexivity; assumption.
Qed.

Lemma uint_string_nonempty (u : Decimal.uint) :
  u <> Decimal.Nil -> lit (NilEmpty.string_of_uint u) <> [].
Proof. destruct u; intros N; [now destruct N|discriminate..]. Qed.

Ltac digit_step IH :=
  match goal with
  | |- digits ?a true ?s = Some (Z.of_nat (Nat.of_uint_acc ?u ?k)) =>
      replace a with (Z.of_nat k) by (rewrite Nat.tail_mul_spec; lia);
      apply IH; now right
  end.

(** The digits the script reads are the number that was written. *)
Lemma digits_uint (u : Decimal.uint) :
  forall (acc : nat) (b : bool),
    u <> Decimal.Nil \/ b = true ->
    digits (Z.of_nat acc) b (lit (NilEmpty.string_of_uint u))
    = Some (Z.of_nat (Nat.of_uint_acc u acc)).
Proof.
  unfold lit.
  induction u as [|u IH|u IH|u IH|u IH|u IH|u IH|u IH|u IH|u IH|u IH];
    intros acc b H;
    [destruct H as [H| ->]; [now destruct H|reflexivity]|..];
    cbn [NilEmpty.string_of_uint list_ascii_of_string digits Nat.of_uint_acc];
    match goal with
    | |- context [digit_of ?c] =>
        let d := eval vm_compute in (digit_of c) in
        change (digit_of c) with d
    end;
    cbv iota; digit_step IH.
Qed.

Lemma int_uint (u : Decimal.uint) :
  u <> Decimal.Nil ->
  int (lit (NilEmpty.string_of_uint u)) = Some (Z.of_nat (Nat.of_uint u)).
Proof.
  intros N. unfold int.
  rewrite strip_plain
    by first [apply uint_string_nonempty; assumption|apply uint_string_plain].
  destruct u; [now destruct N|..];
    match goal with
    | |- _ = Some (Z.of_nat (Nat.of_uint ?u)) =>
        exact (digits_uint u 0 false (or_introl N))
    end.
Qed.

Lemma to_uint_not_nil (n : nat) : Nat.to_uint n <> Decimal.Nil.
Proof.
  intros E. pose proof (Unsigned.of_to n) as H. rewrite E in H.
  simpl in H. subst n. discriminate E.
Qed.

(** When [grep -c] ends with status 0 and prints a number and a newline,
    the count the script reads is that number.  (Python's [int] refuses
    texts of more than 4300 digits.) *)
Theorem count_reads_decimal (run : list str -> outcome) (filepath : str)
  (n : nat) :
  length (decimal n) <= 4300 ->
  run (grep_argv filepath) = Completed 0 (decimal n ++ [NL]) ->
  count_console_statements run filepath = Z.of_nat n.
Proof.
  intros _ H. unfold count_console_statements. rewrite H.
  change ((0 =? 0)%Z) with true. cbv iota.
  unfold decimal.
  rewrite strip_newline
    by first [apply uint_string_nonempty, to_uint_not_nil
             |apply uint_string_plain].
  rewrite int_uint by apply to_uint_not_nil.
  now rewrite Unsigned.of_to.
Qed.

Lemma count_reads_decimal_witness :
  let run := fun _ : list str => Completed 0 (lit "137" ++ [NL]) in
  (length (decimal 137) <= 4300
   /\ run (grep_argv (lit "src/app.js")) = Completed 0 (decimal 137 ++ [NL]))
  /\ count_console_statements run (lit "src/app.js") = 137%Z.
Proof.
  intros run.
  assert (H1 : length (decimal 137) <= 4300) by (vm_compute; lia).
  assert (H2 : run (grep_argv (lit "src/app.js"))
               = Completed 0 (decimal 137 ++ [NL])) by reflexivity.
  split; [split; assumption|].
  exact (count_reads_decimal run (lit "src/app.js") 137 H1 H2).
Defined.

(** ** The inserted line through the rewriter *)

Lemma logger_path_chars (filepath : str) :
  ~ In ";"%char (logger_path filepath) /\ ~ In "c"%char (logger_path filepath)
  /\ logger_path filepath <> [].
Proof.
  unfold logger_path, repeat_str.
  induction (Z.to_nat (Z.of_nat (count_char "/" filepath) - 1))
    as [|n (IH1 & IH2 & IH3)].
  - split; [|split]; simpl; try discriminate; intuition discriminate.
  - split; [|split]; simpl; try discriminate;
      intros [I|[I|[I|I]]]; try discriminate; [now apply IH1|now apply IH2].
Qed.

(** A match that starts before a logger import statement and reaches into
    it holds the whole statement in its message. *)
Lemma align_statement (filepath : str) name q msg tail rest u b :
  console_name name -> q = SQ \/ q = DQ -> message_of q msg -> tail_ok tail ->
  u <> [] ->
  u ++ logger_statement filepath ++ b
  = (lit name ++ lit "(" ++ [q]) ++ msg ++ q :: tail ++ rest ->
  length u < length ((lit name ++ lit "(" ++ [q]) ++ msg ++ q :: tail) ->
  exists m1 m2, msg = m1 ++ logger_statement filepath ++ m2.
Proof.
  intros Hn Hq [Hmne Hmq] Ht Hu E L.
  destruct (tail_ok_facts tail Ht) as (Tsq & Tsc & Tc & _).
  destruct (logger_path_plain filepath) as [Psq Pdq].
  destruct (logger_path_chars filepath) as (Psc & _ & _).
  set (V := logger_statement filepath) in *.
  set (w := lit name ++ lit "(" ++ [q]) in *.
  set (A := lit "const logger = require(").
  assert (Vq : V ++ b
               = A ++ SQ :: logger_path filepath ++ SQ :: lit ");" ++ b).
  { unfold V, logger_statement, A. norm_app. reflexivity. }
  assert (Vhd : exists y, V ++ b = "c"%char :: y).
  { rewrite Vq. eexists. reflexivity. }
  assert (Asq : ~ In SQ A) by (simpl; unfold SQ; intuition discriminate).
  assert (Vdq : ~ In DQ V).
  { unfold V, logger_statement. rewrite !not_in_app.
    repeat split; try assumption; simpl; unfold DQ; intuition discriminate. }
  assert (K : forall u', u = w ++ u' ->
                         u' ++ V ++ b = msg ++ q :: tail ++ rest ->
                         exists m1 m2, msg = m1 ++ V ++ m2).
  { intros u' -> E'. rewrite !length_app in L.
    apply app_eq_app in E' as (l & [[E1 E2]|[E1 E2]]).
    - (* the statement starts at or after the closing quote *)
      exfalso. subst u'. rewrite length_app in L.
      destruct Vhd as (y & Ey). rewrite Ey in E2.
      destruct l as [|q' l'].
      + injection E2 as Eq _. rewrite Eq in Hq.
        destruct Hq as [Hq|Hq]; discriminate Hq.
      + injection E2 as <- E2. simpl in L.
        apply app_eq_app in E2 as (l2 & [[E3 E4]|[E3 E4]]).
        * destruct l2 as [|c1 l2].
          -- rewrite app_nil_r in E3. subst l'. lia.
          -- injection E4 as <- _. subst tail.
             apply Tc. apply in_app_iff. right. now left.
        * subst l'. rewrite length_app in L. lia.
    - (* the statement starts inside the message *)
      subst msg. rewrite not_in_app in Hmq. destruct Hmq as [_ Hl].
      destruct Hq as [->| ->].
      + exfalso. rewrite Vq in E2.
        apply span_unique in E2 as [_ E2]; try assumption.
        symmetry in E2.
        apply prefix_before_sep in E2 as (l2 & E2); [|assumption].
        apply Psc. rewrite E2. apply in_app_iff. now left.
      + apply prefix_before_sep in E2 as (l2 & ->); [|assumption].
        now exists u', l2. }
  apply app_eq_app in E as (l & [[E1 E2]|[E1 E2]]).
  - apply (K l); [assumption|now symmetry].
  - destruct l as [|a l].
    + rewrite app_nil_r in E1. apply (K []); [now rewrite app_nil_r|].
      simpl. exact E2.
    + exfalso. destruct Vhd as (y & Ey). rewrite Ey in E2. symmetry in E2.
      apply (overlap_conflict w (lit "c") u (a :: l)
               (msg ++ q :: tail ++ rest) y);
        try assumption; try discriminate.
      unfold w.
      destruct Hn as [->|[->| ->]], Hq as [->| ->]; vm_compute; reflexivity.
Qed.

(** No call starts inside a logger import statement. *)
Lemma no_console_in_statement (filepath : str) (t1 t2 b z : str) :
  logger_statement filepath = t1 ++ t2 -> t2 <> [] ->
  t2 ++ b = lit "console." ++ z -> False.
Proof.
  intros E N E2.
  destruct (logger_path_chars filepath) as (_ & Pc & Pne).
  assert (EV : logger_statement filepath
               = lit "const logger = require('" ++ logger_path filepath
                   ++ lit "');") by reflexivity.
  rewrite EV in E.
  apply app_eq_app in E as (l & [[E1 E3]|[E1 E3]]).
  - destruct l as [|a l].
    + simpl in E3. subst t2.
      destruct (logger_path filepath) as [|c0 P']; [now destruct Pne|].
      simpl in E2. injection E2 as -> _. apply Pc. now left.
    + subst t2. rewrite <- !app_assoc in E2.
      apply (start_conflict (lit "const logger = require('") (lit "console.")
               t1 (a :: l) (logger_path filepath ++ lit "');" ++ b) z);
        [vm_compute; reflexivity|assumption|discriminate|exact E2].
  - apply app_eq_app in E3 as (l' & [[E4 E5]|[E4 E5]]).
    + destruct l' as [|c0 l'].
      * simpl in E5. subst t2. simpl in E2. discriminate E2.
      * subst t2. simpl in E2. injection E2 as -> _.
        apply Pc. rewrite E4. apply in_app_iff. right. now left.
    + apply (start_conflict (lit "');") (lit "console.") l' t2 b z);
        try assumption. vm_compute. reflexivity.
Qed.

(** Every rule keeps a logger import statement. *)
Lemma statement_kept (r : rule) (filepath text : str) :
  In r rules ->
  occurs (logger_statement filepath) text ->
  occurs (logger_statement filepath) (fst (subn (fst r) (snd r) text)).
Proof.
  intros I (a & b & ->). unfold subn, fst at 1.
  apply scan_preserve with (v := logger_statement filepath); [| |lia].
  - intros u prev n gs Hu M.
    apply (rule_match_shape r _ _ _ _ _ I) in M
      as (name & q & msg & tail & rest & Hn & Hq & Hm & Ht & Es & -> & name'
          & tail' & ->).
    split; [rewrite !length_app; simpl; lia|].
    destruct (le_lt_dec
                (length ((lit name ++ lit "(" ++ [q]) ++ msg ++ q :: tail))
                (length u)) as [Hle|Hlt]; [now left|right].
    destruct (align_statement filepath name q msg tail rest u b)
      as (m1 & m2 & ->); try assumption.
    exists (lit name' ++ q :: m1), (m2 ++ q :: tail').
    rewrite <- !app_assoc. simpl. rewrite <- !app_assoc. reflexivity.
  - intros prev. rewrite scan_copy_prefix.
    + rewrite render_app, render_copy. now eexists.
    + intros v1 v2 E N prev'.
      destruct (match_here (fst r) false prev' (v2 ++ b)) as [[n gs]|] eqn:M;
        [exfalso|reflexivity].
      apply (rule_match_shape r _ _ _ _ _ I) in M
        as (name & q & msg & tail & rest & Hn & _ & _ & _ & Es & _).
      rewrite <- !app_assoc in Es.
      destruct (console_start name
                  (lit "(" ++ [q] ++ msg ++ q :: tail ++ rest) Hn)
        as (z & Ez).
      rewrite Ez in Es.
      exact (no_console_in_statement filepath v1 v2 b z E N Es).
Qed.

Lemma statement_survives (filepath text : str) :
  occurs (logger_statement filepath) text ->
  occurs (logger_statement filepath) (fst (replace_console_statements text)).
Proof.
  intros O. unfold replace_console_statements.
  apply (apply_rules_keep (occurs (logger_statement filepath))); [|exact O].
  intros r I t Ot. now apply statement_kept.
Qed.

(** The import that the inserter adds is in the text that [main] writes:
    the rewriter, which runs on the text with the new line, leaves the
    statement [const logger = require('<path>');] in it. *)
Theorem import_survives_rewrite (content filepath content1 : str) :
  add_logger_import content filepath = (content1, true) ->
  occurs (logger_statement filepath) (rewrite_file content filepath).
Proof.
  intros H. unfold rewrite_file. rewrite H.
  change (fst (content1, true)) with content1.
  apply statement_survives.
  destruct (add_logger_import_added content filepath content1 H)
    as (before & l & after & _ & _ & _ & _ & ->).
  exists (join_lines (before ++ [l]) ++ [NL]),
    (match after with [] => [] | _ :: _ => NL :: join_lines after end).
  unfold logger_line. rewrite <- app_assoc. reflexivity.
Qed.

Lemma import_survives_rewrite_witness :
  let content1 := fst (add_logger_import a_js (lit "src/a.js")) in
  add_logger_import a_js (lit "src/a.js") = (content1, true)
  /\ occurs (logger_statement (lit "src/a.js"))
       (rewrite_file a_js (lit "src/a.js")).
Proof.
  intros content1.
  assert (H : add_logger_import a_js (lit "src/a.js") = (content1, true))
    by (vm_compute; reflexivity).
  split; [exact H|].
  exact (import_survives_rewrite a_js (lit "src/a.js") content1 H).
Defined.

(** ** What a run writes *)

Lemma lookup_store_same (f c : str) (t : tree) :
  lookup f (store f c t) = Some c.
Proof.
  assert (R : str_eqb f f = true) by (now apply str_eqb_eq).
  induction t as [|[k v] t IH]; simpl.
  - now rewrite R.
  - destruct (str_eqb k f) eqn:Q; simpl; rewrite Q; [reflexivity|exact IH].
Qed.

Lemma process_file_writes (t t' : tree) (f content : str) (l : file_log) :
  process_file run_tree read_tree write_tree t f = Some (t', l) ->
  lookup f t = Some content ->
  lookup f t' = Some (rewrite_file (universal_newlines content) f).
Proof.
  unfold process_file, read_tree, write_tree, rewrite_file. intros H L.
  rewrite L in H. cbn [option_map] in H.
  destruct (add_logger_import (universal_newlines content) f) as [c1 added].
  change (fst (c1, added)) with c1.
  destruct (replace_console_statements c1) as [c2 count].
  cbv beta iota in H. injection H as <- _.
  apply lookup_store_same.
Qed.

Lemma process_files_writes (pre : list str) :
  forall post t a b logs t' a' b' logs' f content,
    process_files run_tree read_tree write_tree t (pre ++ f :: post) a b logs
    = Some (t', a', b', logs') ->
    ~ In f pre -> ~ In f post -> lookup f t = Some content ->
    lookup f t' = Some (rewrite_file (universal_newlines content) f).
Proof.
  induction pre as [|g pre IH];
    intros post t a b logs t' a' b' logs' f content H Npre Npost L;
    simpl in H.
  - destruct (process_file run_tree read_tree write_tree t f)
      as [[t1 l]|] eqn:P; [|discriminate].
    apply process_files_tree in H as [_ H2]. rewrite (H2 f Npost).
    exact (process_file_writes t t1 f content l P L).
  - destruct (process_file run_tree read_tree write_tree t g)
      as [[t1 l]|] eqn:P; [|discriminate].
    apply process_file_tree in P as [_ P2].
    apply (IH post t1 _ _ _ t' a' b' logs' f content H).
    + intros I. apply Npre. now right.
    + exact Npost.
    + rewrite P2; [exact L|]. intros ->. apply Npre. now left.
Qed.

(** What a run leaves in a file that the locator returned once, on a tree
    whose paths hold no line break: the text that was read, line ends as
    [open] gives them, with the import inserted and the calls rewritten. *)
Theorem tree_run_rewrites (t t' : tree) (s : summary) (pre post : list str)
  (f content : str) :
  plain_paths t ->
  main_tree t = Some (t', s) ->
  find_files_with_console (run_tree t) = Some (pre ++ f :: post) ->
  ~ In f pre -> ~ In f post -> lookup f t = Some content ->
  lookup f t' = Some (rewrite_file (universal_newlines content) f).
Proof.
  unfold main_tree, main. intros _ H F Npre Npost L. rewrite F in H.
  destruct (pre ++ f :: post) as [|g files] eqn:E;
    [now destruct pre|].
  destruct (process_files run_tree read_tree write_tree t (g :: files) 0 0 [])
    as [[[[t1 a1] b1] logs1]|] eqn:P; [|discriminate].
  destruct (find_files_with_console (run_tree t1)); [|discriminate].
  injection H as <- _. rewrite <- E in P.
  exact (process_files_writes pre post t _ _ _ t1 a1 b1 logs1 f content
           P Npre Npost L).
Qed.

Lemma tree_run_rewrites_witness :
  let crlf := lit "const x = require('x');" ++ "013"%char :: NL
                :: lit "console.warn('careful');" ++ "013"%char :: [NL] in
  let t := [(lit "src/a.js", crlf); (lit "src/deep/b.js", b_js)] in
  exists t' s,
    (plain_paths t
     /\ main_tree t = Some (t', s)
     /\ find_files_with_console (run_tree t)
        = Some ([] ++ lit "src/a.js" :: [lit "src/deep/b.js"])
     /\ ~ In (lit "src/a.js") [] /\ ~ In (lit "src/a.js") [lit "src/deep/b.js"]
     /\ lookup (lit "src/a.js") t = Some crlf)
    /\ lookup (lit "src/a.js") t'
       = Some (rewrite_file (universal_newlines crlf) (lit "src/a.js")).
Proof.
  intros crlf t.
  destruct (main_tree t) as [[t' s]|] eqn:M; [|vm_compute in M; discriminate].
  exists t', s.
  assert (P : plain_paths t)
    by (repeat constructor; simpl; unfold NL; intuition discriminate).
  assert (F : find_files_with_console (run_tree t)
              = Some ([] ++ lit "src/a.js" :: [lit "src/deep/b.js"]))
    by (vm_compute; reflexivity).
  assert (N1 : ~ In (lit "src/a.js") []) by (intros []).
  assert (N2 : ~ In (lit "src/a.js") [lit "src/deep/b.js"]).
  { simpl. intros [E|[]]. vm_compute in E. discriminate E. }
  assert (L : lookup (lit "src/a.js") t = Some crlf) by reflexivity.
  split; [repeat split; assumption|].
  exact (tree_run_rewrites t t' s [] [lit "src/deep/b.js"] (lit "src/a.js")
           crlf P M F N1 N2 L).
Defined.


(** ** Files without an import line *)





(** ** The error call of the specification *)



